(** * Textual application core: screens, registration, pruning, batching

    A shallow embedding of the application runtime split over
    [app_components/app_renderer.py], [app_components/app.py],
    [app_components/app_event_handler.py],
    [app_components/app_compositor.py] and
    [app_package/app_screen_controller.py], followed by the properties of
    the natural-language specification that concern them.

    Objects (the app, screens, widgets, futures) are identified by natural
    numbers, which stand for Python object identity.  Attribute state lives
    in explicit records; calls into collaborators that the sources only
    import (message pumps, style sheets, node lists) are recorded in an
    effect log in program order. *)

From stdpp Require Import gmap strings list.
From Stdlib Require Import ZArith Lia.

Set Warnings "-register-all,-clear-no-such-hyp".
Local Open Scope Z_scope.

(* ===================================================================== *)
(** ** [AppRenderer]: batched updates ([app_renderer.py], lines 71-89)    *)
(* ===================================================================== *)

Module Renderer.

Inductive exn :=
| AssertionError          (* the [assert] of [_end_batch] *)
| BodyError (tag : nat).  (* any exception raised by user code *)

(** Effects observable on the message pump and the screen. *)
Inductive effect :=
| CheckIdle               (* [self.check_idle()] *)
| Did (tag : nat).        (* user code inside a batch doing some work *)

#[global] Instance renderer_effect_eq_dec : EqDecision effect.
Proof. solve_decision. Defined.

Record AppRenderer := mkRenderer {
  _batch_count : Z;
  effects : list effect
}.

(** [__init__] sets [self._batch_count = 0]. *)
Definition init : AppRenderer := mkRenderer 0 [].

Definition check_idle (r : AppRenderer) : AppRenderer :=
  mkRenderer (_batch_count r) (effects r ++ [CheckIdle]).

(** [self._batch_count += 1] *)
Definition _begin_batch (r : AppRenderer) : AppRenderer :=
  mkRenderer (_batch_count r + 1) (effects r).

(** [self._batch_count -= 1; assert self._batch_count >= 0;
    if not self._batch_count: self.check_idle()] *)
Definition _end_batch (r : AppRenderer) : AppRenderer * option exn :=
  let r1 := mkRenderer (_batch_count r - 1) (effects r) in
  if decide (0 ≤ _batch_count r1) then
    if decide (_batch_count r1 = 0) then (check_idle r1, None)
    else (r1, None)
  else (r1, Some AssertionError).

(** The [@contextmanager]: [_begin_batch(); try: yield; finally:
    _end_batch()].  The body either completes or raises; the [finally]
    clause runs either way, and an exception raised by the clause itself
    replaces the one in flight. *)
Definition batch_update
    (body : AppRenderer → AppRenderer * option exn)
    (r : AppRenderer) : AppRenderer * option exn :=
  let r1 := _begin_batch r in
  let '(r2, raised) := body r1 in
  let '(r3, failed) := _end_batch r2 in
  (r3, match failed with Some e => Some e | None => raised end).

(** Code that runs inside [with self.batch_update():] blocks: plain
    work, a raise, or a nested scope. *)
Inductive stmt :=
| Work (tag : nat)
| Raise (tag : nat)
| Batch (body : list stmt).

Fixpoint exec (s : stmt) (r : AppRenderer) : AppRenderer * option exn :=
  match s with
  | Work tag => (mkRenderer (_batch_count r) (effects r ++ [Did tag]), None)
  | Raise tag => (r, Some (BodyError tag))
  | Batch body =>
      batch_update
        ((fix block (b : list stmt) (r : AppRenderer) :=
            match b with
            | [] => (r, None)
            | s :: b' =>
                match exec s r with
                | (r', None) => block b' r'
                | (r', Some e) => (r', Some e)
                end
            end) body) r
  end.

(** A statement sequence; it stops at the first exception. *)
Fixpoint exec_block (b : list stmt) (r : AppRenderer)
  : AppRenderer * option exn :=
  match b with
  | [] => (r, None)
  | s :: b' =>
      match exec s r with
      | (r', None) => exec_block b' r'
      | (r', Some e) => (r', Some e)
      end
  end.

(** Number of idle checks performed so far. *)
Definition idle_checks (r : AppRenderer) : nat :=
  length (filter (λ e, e = CheckIdle) (effects r)).

(** What a statement does when it runs inside an open scope. *)
Definition quiet (s : stmt) : Prop :=
  ∀ r r' raised,
    0 < _batch_count r →
    exec s r = (r', raised) →
    _batch_count r' = _batch_count r ∧
    raised ≠ Some AssertionError ∧
    ∃ tr, effects r' = effects r ++ tr ∧ CheckIdle ∉ tr.

End Renderer.

(* ===================================================================== *)
(** ** [App.call_from_thread] ([app.py], lines 447-497)                   *)
(* ===================================================================== *)

Module Bridge.

Inductive exn :=
| RuntimeError (msg : string)
| CallbackFailure (tag : nat).   (* whatever the callback raises *)

Inductive outcome :=
| Returns (value : Z)
| Raises (e : exn).

(** Work done on the application's own thread on behalf of the caller. *)
Inductive effect :=
| SetActive                      (* [self._set_active()] *)
| Invoke (args : list Z).        (* [invoke(callback_with_args)] *)

(** The two attributes the bridge reads.  [_loop] is [None] while the
    application is not running. *)
Record App := mkApp {
  _loop : option nat;
  _thread_id : Z
}.

(** [run_app] in [lifespan_controller.py]: the loop and the thread are
    recorded on entry and cleared in the [finally] clause. *)
Definition run_app_enter (running_loop : nat) (get_ident : Z) (app : App) : App :=
  mkApp (Some running_loop) get_ident.

Definition run_app_exit (app : App) : App := mkApp None 0.

(** [get_ident] is [threading.get_ident()] of the calling thread.  The
    coroutine is run on the loop and [future.result()] hands back what it
    returned, or raises what it raised. *)
Definition call_from_thread (app : App) (get_ident : Z)
    (callback : list Z → outcome) (args : list Z) : list effect * outcome :=
  match _loop app with
  | None => ([], Raises (RuntimeError "App is not running"))
  | Some loop =>
      if decide (_thread_id app = get_ident) then
        ([], Raises (RuntimeError
           "The `call_from_thread` method must run in a different thread from the app"))
      else
        let callback_with_args := λ _ : unit, callback args in
        ([SetActive; Invoke args], callback_with_args ())
  end.

End Bridge.

(* ===================================================================== *)
(** ** [AppEventHandler._dispatch_action] ([app_event_handler.py],
       lines 597-635)                                                     *)
(* ===================================================================== *)

Module EventHandler.

(** What calling an action method does. *)
Inductive handled :=
| Completes
| RaisesSkipAction
| RaisesOther (tag : nat).

(** An attribute of the namespace object: something callable, or any
    other value. *)
Inductive attribute :=
| Callable (method : list Z → handled)
| NotCallable.

Inductive outcome :=
| Returns (handled : bool)
| Raises (tag : nat).

(** [await invoke(method, *params); return True] inside
    [try: ... except SkipAction: ...; return False]. *)
Definition invoke_handler (method : list Z → handled) (params : list Z) : outcome :=
  match method params with
  | Completes => Returns true
  | RaisesSkipAction => Returns false
  | RaisesOther tag => Raises tag
  end.

(** The namespace is the attribute dictionary that [getattr(namespace,
    name, None)] consults.  The first component of the result lists the
    attribute names whose method was invoked. *)
Definition _dispatch_action (namespace : gmap string attribute)
    (action_name : string) (params : list Z) : list string * outcome :=
  let private_name := "_action_" +:+ action_name in
  let public_name := "action_" +:+ action_name in
  match namespace !! private_name with
  | Some (Callable private_method) =>
      ([private_name], invoke_handler private_method params)
  | _ =>
      match namespace !! public_name with
      | Some (Callable public_method) =>
          ([public_name], invoke_handler public_method params)
      | _ => ([], Returns false)
      end
  end.

End EventHandler.

(* ===================================================================== *)
(** ** The application object: screens, registry and DOM
       ([app_screen_controller.py], [app_compositor.py])                  *)
(* ===================================================================== *)

Module Core.

Local Open Scope nat_scope.

(** Node identities.  The application itself is node [APP]; it is a
    [DOMNode] but not a [Widget].  Every other node is a [Widget]
    (screens included). *)
Definition APP : nat := 0.

Definition is_Widget (node : nat) : bool := negb (node =? APP).

Inductive exn :=
| ScreenStackError (msg : string)
| UnknownModeError (mode : string)
| KeyError (key : string)
| IndexError (msg : string)
| AppError (msg : string)
| ScreenError (msg : string)
| NoActiveWorker.

Inductive message := ScreenSuspend | ScreenResume.

(** Calls into collaborators whose code is outside these sources. *)
Inductive effect :=
| PostMessage (target : nat) (m : message)   (* [target.post_message(m)] *)
| Refresh (target : nat)                     (* [target.refresh()] *)
| Remove (target : nat)                      (* [target.remove()] *)
| LoadScreenCss (target : nat)               (* [self._load_screen_css(target)] *)
| StylesheetUpdate (target : nat)            (* [self.stylesheet.update(target)] *)
| StylesheetApply (target : nat)             (* [self.stylesheet.apply(target)] *)
| CallNext (target : nat) (widgets : list nat)  (* [self.call_next(AwaitMount(..))] *)
| PostRegister (target : nat)                (* [target._post_register(self)] *)
| StartMessages (target : nat)               (* [target._start_messages()] *)
| CloseMessages (targets : list nat)         (* pumps closed and awaited together *)
| Blur (target : nat)                        (* [target.blur()] *)
| Discard (target : nat)                     (* [self._registry.discard(target)] *)
| ResetFocus (target : nat) (avoiding : gset nat)   (* [screen._reset_focus(..)] *)
| InvokeCallback (requester callback : nat) (value : Z).

#[global] Instance message_eq_dec : EqDecision message.
Proof. solve_decision. Defined.

#[global] Instance effect_eq_dec : EqDecision effect.
Proof. solve_decision. Defined.

(** An entry of the installed-screen dict: a screen instance, or a callable
    that creates the screen [creates] when called. *)
Inductive installed :=
| Instance (screen : nat)
| Factory (creates : nat).

#[global] Instance installed_eq_dec : EqDecision installed.
Proof. solve_decision. Defined.

(** A [Screen | str] argument. *)
Inductive screen_ref :=
| ByName (name : string)
| ByObject (screen : nat).

(** An entry of a screen's result-callback stack. *)
Record ResultCallback := mkResultCallback {
  requester : nat;
  callback : option nat;
  future : option nat
}.

Record App := mkApp {
  _screen_stacks : gmap string (list nat);   (* a stack of screens per mode; the top is the last element *)
  _current_mode : string;   (* the mode the app is in *)
  _installed_screens : list (string * installed);   (* the installed-screen dict, in insertion order *)
  _registry : gset nat;   (* the set of registered nodes *)
  _nodes : gmap nat (list nat);   (* [node._nodes]: the ordered child list of every node *)
  _parent : gmap nat nat;   (* [node._parent]; no entry stands for [None] *)
  _virtual_dom : gmap nat (list nat);   (* [node._get_virtual_dom()] *)
  _running : gset nat;   (* the nodes whose pump has [_running] set *)
  focused : gmap nat nat;   (* [screen.focused]; no entry stands for [None] *)
  can_focus : gset nat;   (* the widgets whose [can_focus] is true *)
  _result_callbacks : gmap nat (list ResultCallback);   (* [screen._result_callbacks], latest last *)
  futures : gmap nat (option Z);   (* the futures created so far: pending ([None]) or resolved *)
  effects : list effect   (* calls into collaborators, in program order *)
}.

Definition set_screen_stacks (v : gmap string (list nat)) (a : App) : App :=
  mkApp v (_current_mode a) (_installed_screens a) (_registry a) (_nodes a)
    (_parent a) (_virtual_dom a) (_running a) (focused a) (can_focus a)
    (_result_callbacks a) (futures a) (effects a).

Definition set_installed_screens (v : list (string * installed)) (a : App) : App :=
  mkApp (_screen_stacks a) (_current_mode a) v (_registry a) (_nodes a)
    (_parent a) (_virtual_dom a) (_running a) (focused a) (can_focus a)
    (_result_callbacks a) (futures a) (effects a).

Definition set_registry (v : gset nat) (a : App) : App :=
  mkApp (_screen_stacks a) (_current_mode a) (_installed_screens a) v
    (_nodes a) (_parent a) (_virtual_dom a) (_running a) (focused a)
    (can_focus a) (_result_callbacks a) (futures a) (effects a).

Definition set_nodes (v : gmap nat (list nat)) (a : App) : App :=
  mkApp (_screen_stacks a) (_current_mode a) (_installed_screens a)
    (_registry a) v (_parent a) (_virtual_dom a) (_running a) (focused a)
    (can_focus a) (_result_callbacks a) (futures a) (effects a).

Definition set_parent (v : gmap nat nat) (a : App) : App :=
  mkApp (_screen_stacks a) (_current_mode a) (_installed_screens a)
    (_registry a) (_nodes a) v (_virtual_dom a) (_running a) (focused a)
    (can_focus a) (_result_callbacks a) (futures a) (effects a).

Definition set_running (v : gset nat) (a : App) : App :=
  mkApp (_screen_stacks a) (_current_mode a) (_installed_screens a)
    (_registry a) (_nodes a) (_parent a) (_virtual_dom a) v (focused a)
    (can_focus a) (_result_callbacks a) (futures a) (effects a).

Definition set_result_callbacks (v : gmap nat (list ResultCallback)) (a : App) : App :=
  mkApp (_screen_stacks a) (_current_mode a) (_installed_screens a)
    (_registry a) (_nodes a) (_parent a) (_virtual_dom a) (_running a)
    (focused a) (can_focus a) v (futures a) (effects a).

Definition set_futures (v : gmap nat (option Z)) (a : App) : App :=
  mkApp (_screen_stacks a) (_current_mode a) (_installed_screens a)
    (_registry a) (_nodes a) (_parent a) (_virtual_dom a) (_running a)
    (focused a) (can_focus a) (_result_callbacks a) v (effects a).

Definition set_effects (v : list effect) (a : App) : App :=
  mkApp (_screen_stacks a) (_current_mode a) (_installed_screens a)
    (_registry a) (_nodes a) (_parent a) (_virtual_dom a) (_running a)
    (focused a) (can_focus a) (_result_callbacks a) (futures a) v.


(** *** A state-and-exception monad *)

Inductive outcome (A : Type) :=
| Val (value : A) (app : App)     (* normal completion *)
| Exc (e : exn) (app : App)       (* an exception propagates; effects stay *)
| Diverge.                        (* the fuel of a loop ran out *)

Arguments Val {A} value app.
Arguments Exc {A} e app.
Arguments Diverge {A}.

Definition M (A : Type) : Type := App → outcome A.

Definition ret {A} (x : A) : M A := λ a, Val x a.

Definition bind {A B} (m : M A) (k : A → M B) : M B :=
  λ a, match m a with
       | Val x a' => k x a'
       | Exc e a' => Exc e a'
       | Diverge => Diverge
       end.

Definition raise {A} (e : exn) : M A := λ a, Exc e a.

Definition diverge {A} : M A := λ _, Diverge.

Definition gets {A} (f : App → A) : M A := λ a, Val (f a) a.

Definition modify (f : App → App) : M unit := λ a, Val tt (f a).

Definition emit (e : effect) : M unit :=
  modify (λ a, set_effects (effects a ++ [e]) a).

Notation "x <- m ;; k" := (bind m (λ x, k))
  (at level 100, m at next level, right associativity).
Notation "m ;; k" := (bind m (λ _, k))
  (at level 100, right associativity).

(** [for x in xs: body(x)] *)
Fixpoint for_each {A} (xs : list A) (body : A → M unit) : M unit :=
  match xs with
  | [] => ret tt
  | x :: xs' => body x ;; for_each xs' body
  end.

(** *** Dicts in insertion order *)

Fixpoint dict_get {V} (key : string) (d : list (string * V)) : option V :=
  match d with
  | [] => None
  | (k, v) :: d' => if decide (k = key) then Some v else dict_get key d'
  end.

(** [d[key] = value]: an existing key keeps its position. *)
Fixpoint dict_set {V} (key : string) (value : V) (d : list (string * V))
  : list (string * V) :=
  match d with
  | [] => [(key, value)]
  | (k, v) :: d' =>
      if decide (k = key) then (k, value) :: d' else (k, v) :: dict_set key value d'
  end.

(** [del d[key]] *)
Fixpoint dict_del {V} (key : string) (d : list (string * V)) : list (string * V) :=
  match d with
  | [] => []
  | (k, v) :: d' => if decide (k = key) then d' else (k, v) :: dict_del key d'
  end.

(** *** Screen stacks ([app_screen_controller.py]) *)

(** The [_screen_stack] property: [self._screen_stacks[self._current_mode]]. *)
Definition _screen_stack : M (list nat) :=
  λ a, match _screen_stacks a !! _current_mode a with
       | Some stack => Val stack a
       | None => Exc (KeyError (_current_mode a)) a
       end.

(** The [screen] property: [self._screen_stack[-1]], with [KeyError] and
    [IndexError] translated. *)
Definition screen : M nat :=
  λ a, match _screen_stacks a !! _current_mode a with
       | None => Exc (UnknownModeError (_current_mode a)) a
       | Some stack =>
           match last stack with
           | Some top => Val top a
           | None => Exc (ScreenStackError "No screens on stack") a
           end
       end.

(** In-place update of the list object of the current mode
    ([screen_stack.pop()], [self._screen_stack.append(..)]). *)
Definition update_current_stack (f : list nat → list nat) : M unit :=
  modify (λ a, set_screen_stacks (alter f (_current_mode a) (_screen_stacks a)) a).

(** [any(screen in stack for stack in self._screen_stacks.values())] *)
Definition in_some_stack (screen : nat) (a : App) : bool :=
  bool_decide (map_Exists (λ _ stack, screen ∈ stack) (_screen_stacks a)).

Definition is_screen_installed (screen : screen_ref) (a : App) : bool :=
  match screen with
  | ByName name => bool_decide (is_Some (dict_get name (_installed_screens a)))
  | ByObject s => bool_decide (Instance s ∈ (_installed_screens a).*2)
  end.

Definition _replace_screen (screen_ : nat) : M nat :=
  stack <- _screen_stack ;;
  (if decide (stack = []) then ret tt
   else (current <- screen ;; emit (Refresh current))) ;;
  emit (PostMessage screen_ ScreenSuspend) ;;
  installed_ <- gets (is_screen_installed (ByObject screen_)) ;;
  on_stack <- gets (in_some_stack screen_) ;;
  (if negb installed_ && negb on_stack then emit (Remove screen_) else ret tt) ;;
  ret screen_.

(** Modelled from the spec: [Screen._pop_result_callback] belongs to
    [textual.screen], which is not among the sources.  The spec keeps a
    one-shot callback/future pair per push; popping drops the latest
    pair of the screen. *)
Definition _pop_result_callback (screen_ : nat) : M unit :=
  modify (λ a, set_result_callbacks
                 (alter (λ l, removelast l) screen_ (_result_callbacks a)) a).

Definition pop_screen : M nat :=
  screen_stack <- _screen_stack ;;
  if decide (length screen_stack ≤ 1) then
    raise (ScreenStackError
      "Can't pop screen; there must be at least one screen on the stack")
  else
    match last screen_stack with
    | None => raise (IndexError "pop from empty list")
    | Some top =>
        update_current_stack (λ l, removelast l) ;;
        previous_screen <- _replace_screen top ;;
        _pop_result_callback previous_screen ;;
        current <- screen ;;
        emit (PostMessage current ScreenResume) ;;
        ret previous_screen
    end.

Definition install_screen (screen_ : nat) (name : string) : M unit :=
  a <- gets id ;;
  if is_screen_installed (ByName name) a then
    raise (ScreenError "Can't install screen; the name is already installed")
  else if is_screen_installed (ByObject screen_) a then
    raise (ScreenError "Can't install screen; it has already been installed")
  else modify (λ a, set_installed_screens
                      (dict_set name (Instance screen_) (_installed_screens a)) a).

(** The first name whose entry is the given screen object, in dict order. *)
Fixpoint find_installed (screen_ : nat) (d : list (string * installed)) : option string :=
  match d with
  | [] => None
  | (name, entry) :: d' =>
      if decide (entry = Instance screen_) then Some name else find_installed screen_ d'
  end.

Definition uninstall_screen (screen_ : screen_ref) : M (option string) :=
  match screen_ with
  | ByName name =>
      installed_screens <- gets _installed_screens ;;
      match dict_get name installed_screens with
      | None => ret None
      | Some uninstall =>
          on_stack <- gets (λ a, match uninstall with
                                 | Instance s => in_some_stack s a
                                 | Factory _ => false
                                 end) ;;
          if on_stack then raise (ScreenStackError "Can't uninstall screen in screen stack")
          else
            modify (λ a, set_installed_screens (dict_del name (_installed_screens a)) a) ;;
            ret (Some name)
      end
  | ByObject s =>
      on_stack <- gets (in_some_stack s) ;;
      if on_stack then raise (ScreenStackError "Can't uninstall screen in screen stack")
      else
        installed_screens <- gets _installed_screens ;;
        match find_installed s installed_screens with
        | Some name =>
            modify (λ a, set_installed_screens (dict_del name (_installed_screens a)) a) ;;
            ret (Some name)
        | None => ret None
        end
  end.

(** *** Node lists and parent pointers *)

Definition nodes_of (node : nat) (a : App) : list nat :=
  default [] (_nodes a !! node).

Definition virtual_dom_of (node : nat) (a : App) : list nat :=
  default [] (_virtual_dom a !! node).

(** Modelled from the spec: [NodeList] ([textual._node_list]) is not among
    the sources.  The spec describes the children of a node as an ordered
    list with insertion at a position derived from [before]/[after],
    appending, and detaching a child from the list.  Positions outside the
    list behave as in Python's [list.insert]. *)
Definition NodeList_insert (index : Z) (widget : nat) (nodes : list nat) : list nat :=
  let n := Z.of_nat (length nodes) in
  let i := (if index <? 0 then Z.max 0 (n + index) else Z.min index n)%Z in
  take (Z.to_nat i) nodes ++ widget :: drop (Z.to_nat i) nodes.

Definition NodeList_append (widget : nat) (nodes : list nat) : list nat :=
  nodes ++ [widget].

Definition NodeList_remove (widget : nat) (nodes : list nat) : list nat :=
  filter (λ n, n ≠ widget) nodes.

Definition update_nodes (node : nat) (f : list nat → list nat) : M unit :=
  modify (λ a, set_nodes (<[node := f (nodes_of node a)]> (_nodes a)) a).

(** [parent._nodes._insert(index, child)] *)
Definition _insert (parent : nat) (index : Z) (child : nat) : M unit :=
  update_nodes parent (NodeList_insert index child).

(** [parent._nodes._append(child)] *)
Definition _append (parent child : nat) : M unit :=
  update_nodes parent (NodeList_append child).

(** [parent._nodes._remove(child)] *)
Definition _remove (parent child : nat) : M unit :=
  update_nodes parent (NodeList_remove child).

(** Modelled from the spec: [DOMNode._attach] and [DOMNode._detach]
    ([textual.dom]) are not among the sources; attaching sets the parent
    pointer, detaching clears it. *)
Definition _attach (child parent : nat) : M unit :=
  modify (λ a, set_parent (<[child := parent]> (_parent a)) a).

Definition _detach (node : nat) : M unit :=
  modify (λ a, set_parent (delete node (_parent a)) a).

(** Modelled from the spec: [MessagePump._start_messages] and
    [MessagePump._close_messages] ([textual.message_pump]) are not among
    the sources.  Starting a pump makes it run; [close(wait=True)] returns
    once the pump has drained its queue and exited. *)
Definition _start_messages (node : nat) : M unit :=
  emit (StartMessages node) ;;
  modify (λ a, set_running ({[node]} ∪ _running a) a).

(** [asyncio.gather] over [t._close_messages(wait=True)] for every [t] in
    [targets], awaited; a single awaited call is the one-element case. *)
Definition _close_messages (targets : list nat) : M unit :=
  emit (CloseMessages targets) ;;
  modify (λ a, set_running (_running a ∖ list_to_set targets) a).

(** *** Registration ([app_compositor.py]) *)

Definition _register_child (parent child : nat) (before after : option Z) : M unit :=
  match before, after with
  | Some _, Some _ =>
      raise (AppError "Only one of 'before' and 'after' may be specified.")
  | _, _ =>
      registry <- gets _registry ;;
      if decide (child ∈ registry) then ret tt
      else
        match before, after with
        | Some before_, _ => _insert parent before_ child
        | None, Some after_ =>
            if decide (after_ ≠ (-1)%Z) then _insert parent (after_ + 1)%Z child
            else _append parent child
        | None, None => _append parent child
        end ;;
        modify (λ a, set_registry ({[child]} ∪ _registry a) a) ;;
        _attach child parent ;;
        emit (PostRegister child) ;;
        _start_messages child
  end.

(** [_register(parent, *widgets, before, after)].  The fuel bounds the depth
    of the recursion into the children of the widgets being registered. *)
Fixpoint _register (fuel : nat) (parent : nat) (widgets : list nat)
    (before after : option Z) : M (list nat) :=
  match widgets with
  | [] => ret []
  | _ =>
      let widget_list :=
        match before, after with
        | None, None => widgets
        | _, _ => reverse widgets
        end in
      for_each widget_list (λ widget,
        if negb (is_Widget widget) then
          raise (AppError "Can't register; expected a Widget instance")
        else
          registry <- gets _registry ;;
          if decide (widget ∈ registry) then ret tt
          else
            _register_child parent widget before after ;;
            children <- gets (nodes_of widget) ;;
            match children with
            | [] => ret tt
            | _ =>
                match fuel with
                | O => diverge
                | S fuel' =>
                    _register fuel' widget children None None ;; ret tt
                end
            end ;;
            emit (StylesheetApply widget)) ;;
      running <- gets _running ;;
      if decide (APP ∈ running) then ret widgets else ret []
  end.

Definition _unregister (widget : nat) : M unit :=
  emit (Blur widget) ;;
  parent <- gets (λ a, _parent a !! widget) ;;
  match parent with
  | Some p =>
      if is_Widget p then _remove p widget ;; _detach widget else ret tt
  | None => ret tt
  end ;;
  modify (λ a, set_registry (_registry a ∖ {[widget]}) a) ;;
  emit (Discard widget).

(** *** Pruning ([app_screen_controller.py]) *)

(** The generator [_walk_children]: [stack.pop()] takes the last element,
    [push] appends.  The result lists the yielded sibling groups in
    order; [None] when the fuel runs out before the stack is empty. *)
Fixpoint walk_loop (fuel : nat) (stack : list nat) (a : App)
  : option (list (list nat)) :=
  match last stack with
  | None => Some []
  | Some widget =>
      match fuel with
      | O => None
      | S fuel' =>
          let children := nodes_of widget a ++ virtual_dom_of widget a in
          match walk_loop fuel' (removelast stack ++ nodes_of widget a) a with
          | None => None
          | Some rest =>
              Some (if decide (children = []) then rest else children :: rest)
          end
      end
  end.

Definition _walk_children (fuel : nat) (root : nat) : M (list (list nat)) :=
  λ a, match walk_loop fuel [root] a with
       | Some groups => Val groups a
       | None => Diverge
       end.

(** One round of the loop over [reversed(node_children)]. *)
Definition close_children (children : list nat) : M unit :=
  running <- gets _running ;;
  let close_messages := filter (λ child, child ∈ running) children in
  match close_messages with
  | [] => ret tt
  | _ => _close_messages close_messages ;; for_each children _unregister
  end.

Definition _prune_node (fuel : nat) (root : nat) : M unit :=
  registry <- gets _registry ;;
  if decide (root ∉ registry) then ret tt
  else
    node_children <- _walk_children fuel root ;;
    for_each (reverse node_children) close_children ;;
    _close_messages [root] ;;
    _unregister root.

Definition _prune_nodes (fuel : nat) (widgets : list nat) : M unit :=
  for_each widgets (_prune_node fuel).

(** *** Detaching ([app_screen_controller.py]) *)

(** Modelled from the spec: [DOMNode.ancestors] ([textual.dom]) is not
    among the sources.  The ancestors of a node are its parent, the
    parent of its parent, and so on up to the root, nearest first. *)
Fixpoint ancestors (fuel : nat) (node : nat) (a : App) : option (list nat) :=
  match _parent a !! node with
  | None => Some []
  | Some p =>
      match fuel with
      | O => None
      | S fuel' =>
          match ancestors fuel' p a with
          | Some up => Some (p :: up)
          | None => None
          end
      end
  end.

(** Modelled from the spec: [DOMNode.walk_children] ([textual.dom]) is not
    among the sources.  Called with [with_self=True, method="depth",
    reverse=True] it lists the node and all its descendants, depth first,
    reversed; only [Widget]s are kept. *)
Fixpoint walk_depth_first (fuel : nat) (stack : list nat) (a : App)
  : option (list nat) :=
  match stack with
  | [] => Some []
  | node :: rest =>
      match fuel with
      | O => None
      | S fuel' =>
          match walk_depth_first fuel' (nodes_of node a ++ rest) a with
          | Some visited => Some (node :: visited)
          | None => None
          end
      end
  end.

Definition walk_children (fuel : nat) (node : nat) : M (list nat) :=
  λ a, match walk_depth_first fuel [node] a with
       | Some visited => Val (reverse (filter (λ n, is_Widget n = true) visited)) a
       | None => Diverge
       end.

(** [[f(x) for x in xs]] with effects. *)
Fixpoint map_m {A B} (f : A → M B) (xs : list A) : M (list B) :=
  match xs with
  | [] => ret []
  | x :: xs' => y <- f x ;; ys <- map_m f xs' ;; ret (y :: ys)
  end.

(** [[x for x in xs if test(x)]] with an effectful test. *)
Fixpoint filter_m {A} (test : A → M bool) (xs : list A) : M (list A) :=
  match xs with
  | [] => ret []
  | x :: xs' =>
      keep <- test x ;; ys <- filter_m test xs' ;;
      ret (if keep : bool then x :: ys else ys)
  end.

(** [request_remove.isdisjoint(widget.ancestors)] *)
Definition no_requested_ancestor (fuel : nat) (request_remove : gset nat)
    (widget : nat) : M bool :=
  λ a, match ancestors fuel widget a with
       | Some up => Val (bool_decide (Forall (λ n, n ∉ request_remove) up)) a
       | None => Diverge
       end.

Definition _detach_from_dom (fuel : nat) (widgets : list nat) : M (list nat) :=
  everything_to_remove <- map_m (walk_children fuel) widgets ;;
  let dedupe_to_remove : gset nat := list_to_set (concat everything_to_remove) in
  current <- screen ;;
  focused_ <- gets (λ a, focused a !! current) ;;
  match focused_ with
  | Some widget =>
      if decide (widget ∈ dedupe_to_remove) then
        avoiding <- gets (λ a, filter (λ n, n ∈ can_focus a) dedupe_to_remove) ;;
        emit (ResetFocus widget avoiding)
      else ret tt
  | None => ret tt
  end ;;
  let request_remove : gset nat := list_to_set widgets in
  pruned_remove <- filter_m (no_requested_ancestor fuel request_remove) widgets ;;
  for_each pruned_remove (λ widget,
    parent <- gets (λ a, _parent a !! widget) ;;
    match parent with
    | Some p => _remove p widget
    | None => ret tt
    end) ;;
  for_each pruned_remove _detach ;;
  ret pruned_remove.

(** *** Pushing screens ([app_screen_controller.py]) *)

(** What the caller's environment provides: the context variable
    [active_message_pump] and whether a worker is active
    ([get_current_worker] raises [NoActiveWorker] otherwise). *)
Record context := mkContext {
  active_message_pump : option nat;
  current_worker : bool
}.

(** What [push_screen] returns. *)
Inductive pushed :=
| AwaitMount (screen_ : nat) (widgets : list nat)
| Future (id : nat).

(** [loop.create_future()] / [asyncio.Future()]: a fresh pending future. *)
Definition create_future : M nat :=
  λ a, let id := fresh (dom (futures a)) in
       Val id (set_futures (<[id := None]> (futures a)) a).

Definition get_screen (screen_ : screen_ref) : M nat :=
  match screen_ with
  | ByName name =>
      installed_screens <- gets _installed_screens ;;
      match dict_get name installed_screens with
      | None => raise (KeyError name)
      | Some (Instance next_screen) => ret next_screen
      | Some (Factory next_screen) =>
          modify (λ a, set_installed_screens
                         (dict_set name (Instance next_screen) (_installed_screens a)) a) ;;
          ret next_screen
      end
  | ByObject next_screen => ret next_screen
  end.

Definition _get_screen (fuel : nat) (screen_ : screen_ref) : M (nat * pushed) :=
  _screen <- get_screen screen_ ;;
  running <- gets _running ;;
  if decide (_screen ∉ running) then
    widgets <- _register fuel APP [_screen] None None ;;
    emit (CallNext _screen widgets) ;;
    ret (_screen, AwaitMount _screen widgets)
  else
    emit (CallNext _screen []) ;;
    ret (_screen, AwaitMount _screen []).

(** Modelled from the spec: [Screen._push_result_callback] and
    [Screen.dismiss] ([textual.screen]) are not among the sources.  The
    spec attaches a one-shot callback/future pair to the screen at push
    time, and [dismiss] delivers its value through the latest pair: the
    future is resolved with it and the callback is called with it. *)
Definition _push_result_callback (screen_ : nat) (requester_ : nat)
    (callback_ : option nat) (future_ : option nat) : M unit :=
  modify (λ a, set_result_callbacks
    (<[screen_ := default [] (_result_callbacks a !! screen_)
                   ++ [mkResultCallback requester_ callback_ future_]]>
       (_result_callbacks a)) a).


Definition push_screen (fuel : nat) (ctx : context) (screen_ : screen_ref)
    (callback_ : option nat) (wait_for_dismiss : bool) : M pushed :=
  future_ <- create_future ;;
  stack <- _screen_stack ;;
  match stack with
  | [] => ret tt
  | _ =>
      current <- screen ;;
      emit (PostMessage current ScreenSuspend) ;;
      current <- screen ;;
      emit (Refresh current)
  end ;;
  next <- _get_screen fuel screen_ ;;
  let '(next_screen, await_mount) := next in
  let message_pump := default APP (active_message_pump ctx) in
  _push_result_callback next_screen message_pump callback_ (Some future_) ;;
  emit (LoadScreenCss next_screen) ;;
  _screen_stack ;;
  update_current_stack (λ stack, stack ++ [next_screen]) ;;
  emit (StylesheetUpdate next_screen) ;;
  emit (PostMessage next_screen ScreenResume) ;;
  screen ;;
  if wait_for_dismiss then
    if current_worker ctx then ret (Future future_)
    else raise NoActiveWorker
  else ret await_mount.

(** [_init_] of the controller and [__init__] of the compositor: one
    empty default mode, the class-level [SCREENS] installed, an empty
    registry. *)
Definition init (SCREENS : list (string * installed)) : App :=
  mkApp {["_default" := []]} "_default" SCREENS ∅ ∅ ∅ ∅ ∅ ∅ ∅ ∅ ∅ [].

(** *** Notions used in the statements below *)

(** The part of the application that registration leaves alone. *)
Definition screens_view (a : App) :=
  (_screen_stacks a, _current_mode a, futures a, _result_callbacks a).

Definition keeps {A} (m : M A) : Prop :=
  ∀ a r a', m a = Val r a' → screens_view a' = screens_view a.

(** The test of the comprehension that builds [pruned_remove], read off the
    parent pointers of a given application state. *)
Definition unrequested_above (fuel : nat) (a : App) (widgets : list nat)
    (w : nat) : bool :=
  match ancestors fuel w a with
  | Some up => bool_decide (Forall (λ n, n ∉ widgets) up)
  | None => false
  end.

(** The body of the loop that makes parents forget the detached widgets. *)
Definition forget_child (widget : nat) : M unit :=
  parent <- gets (λ a, _parent a !! widget) ;;
  match parent with
  | Some p => _remove p widget
  | None => ret tt
  end.

(** A screen [1] with children [2] and [4]; [3] is the child of [2]. *)
Definition family : App :=
  mkApp {[ "_default" := [1] ]} "_default" [] {[ 1; 2; 3; 4 ]}
    {[ 0 := [1]; 1 := [2; 4]; 2 := [3] ]}
    {[ 1 := 0; 2 := 1; 3 := 2; 4 := 1 ]}
    ∅ {[ 1; 2; 3; 4 ]} ∅ ∅ ∅ ∅ [].








(** A screen [1] with children [2] and [3]; [6] is the child of [2]; below
    [3] hangs the chain [4], [5].  Every pump is running. *)
Definition lopsided : App :=
  mkApp {[ "_default" := [1] ]} "_default" [] {[ 1; 2; 3; 4; 5; 6 ]}
    {[ 0 := [1]; 1 := [2; 3]; 2 := [6]; 3 := [4]; 4 := [5] ]}
    {[ 1 := 0; 2 := 1; 3 := 1; 4 := 3; 5 := 4; 6 := 2 ]}
    ∅ {[ 1; 2; 3; 4; 5; 6 ]} ∅ ∅ ∅ ∅ [].



End Core.

(* ===================================================================== *)
(** ** More of the screen controller ([app_screen_controller.py]) and the
       actions that drive it ([app_event_handler.py])                     *)
(* ===================================================================== *)

Module Screens.

Import Core.
Local Open Scope nat_scope.

(** [switch_screen] (lines 413-436).  [screen is self.screen] can only
    hold for a [Screen] argument. *)
Definition switch_screen (fuel : nat) (screen_ : screen_ref) : M pushed :=
  next <- _get_screen fuel screen_ ;;
  let '(next_screen, await_mount) := next in
  current <- screen ;;
  if match screen_ with
     | ByObject s => bool_decide (s = current)
     | ByName _ => false
     end || bool_decide (next_screen = current)
  then
    current <- screen ;; ret (AwaitMount current [])
  else
    screen_stack <- _screen_stack ;;
    match last screen_stack with
    | None => raise (IndexError "pop from empty list")
    | Some top =>
        update_current_stack (λ l, removelast l) ;;
        previous_screen <- _replace_screen top ;;
        _pop_result_callback previous_screen ;;
        emit (LoadScreenCss next_screen) ;;
        _screen_stack ;;
        update_current_stack (λ stack, stack ++ [next_screen]) ;;
        current <- screen ;;
        emit (PostMessage current ScreenResume) ;;
        current <- screen ;;
        requester_ <- screen ;;
        _push_result_callback current requester_ None None ;;
        screen ;;
        ret await_mount
    end.

(** The loop of [_background_screens] over the screens below the top, top
    most first: collect, and stop after the first opaque one. *)
Fixpoint through_first_opaque (opaque : nat → bool) (screens : list nat) : list nat :=
  match screens with
  | [] => []
  | s :: rest => s :: (if opaque s then [] else through_first_opaque opaque rest)
  end.

(** The [_background_screens] property (lines 138-147).  [opaque s] stands
    for [s.styles.background.a == 1]. *)
Definition _background_screens (opaque : nat → bool) : M (list nat) :=
  screen_stack <- _screen_stack ;;
  let screens := through_first_opaque opaque (reverse (removelast screen_stack)) in
  ret (reverse screens).

(** How a call of [action_back] ends. *)
Inductive back_outcome :=
| BackReturns (a : App)
| BackNameError (name : string) (a : App)
| BackDiverges.

(** [action_back] ([app_event_handler.py], lines 770-781):
    [try: self.pop_screen() except ScreenStackError: pass].  The module
    of the handler neither defines nor imports [ScreenStackError] (the
    class lives in [app_screen_controller.py]), so when [pop_screen]
    raises, evaluating the [except] clause raises [NameError]. *)
Definition action_back (a : App) : back_outcome :=
  match pop_screen a with
  | Val _ a' => BackReturns a'
  | Exc _ a' => BackNameError "ScreenStackError" a'
  | Diverge => BackDiverges
  end.

(** What [pop_screen] and [switch_screen] add to the log when they replace
    the screen [top] and [below] becomes, or stays, what is under it. *)
Definition replaced_effects (under : option nat) (top : nat) (removed : bool)
  : list effect :=
  match under with Some s => [Refresh s] | None => [] end
  ++ [PostMessage top ScreenSuspend]
  ++ (if removed then [Remove top] else []).

(** Reduce field accesses on updated application states, nothing else. *)
Ltac app_simpl :=
  cbn [_screen_stacks _current_mode _installed_screens _registry _nodes
       _parent _virtual_dom _running focused can_focus _result_callbacks
       futures effects set_screen_stacks set_installed_screens set_registry
       set_nodes set_parent set_running set_result_callbacks set_futures
       set_effects] in *.

End Screens.

(* ===================================================================== *)
(** ** Notions about registration and pruning                             *)
(* ===================================================================== *)

Module Registry.

Import Core.
Local Open Scope nat_scope.

(** What registration may do to the registry, the pumps and the parent
    pointers: nothing is forgotten, and a node that is new in the registry
    has a running pump and a parent. *)
Definition registered_since (a a' : App) : Prop :=
  _registry a ⊆ _registry a' ∧
  _running a ⊆ _running a' ∧
  dom (_parent a) ⊆ dom (_parent a') ∧
  ∀ w, w ∈ _registry a' → w ∉ _registry a →
       w ∈ _running a' ∧ is_Some (_parent a' !! w).

Definition grows {A} (m : M A) : Prop :=
  ∀ a r a', m a = Val r a' → registered_since a a'.

(** The body of the loop of [_register] over [widget_list]. *)
Definition register_one (fuel : nat) (parent : nat) (before after : option Z)
    (widget : nat) : M unit :=
  if negb (is_Widget widget) then
    raise (AppError "Can't register; expected a Widget instance")
  else
    registry <- gets _registry ;;
    if decide (widget ∈ registry) then ret tt
    else
      _register_child parent widget before after ;;
      children <- gets (nodes_of widget) ;;
      match children with
      | [] => ret tt
      | _ =>
          match fuel with
          | O => diverge
          | S fuel' =>
              _register fuel' widget children None None ;; ret tt
          end
      end ;;
      emit (StylesheetApply widget).




End Registry.

(* ===================================================================== *)
(** ** Mouse tracking and print capture ([app_event_handler.py],
       lines 167-250)                                                     *)
(* ===================================================================== *)

Module Mouse.

Local Open Scope nat_scope.

Inductive event :=
| Leave
| Enter
| MouseRelease (position : Z * Z)
| MouseCapture (position : Z * Z).

Inductive exn := KeyError (target : nat).

(** The attributes of the handler that these methods read and write.
    [posted] lists the messages delivered by [post_message], in order. *)
Record AppEventHandler := mkHandler {
  mouse_over : option nat;
  mouse_captured : option nat;
  mouse_position : Z * Z;
  _capture_print : gmap nat (bool * bool);
  posted : list (nat * event)
}.

Definition set_mouse_over (v : option nat) (s : AppEventHandler) : AppEventHandler :=
  mkHandler v (mouse_captured s) (mouse_position s) (_capture_print s) (posted s).

Definition set_mouse_captured (v : option nat) (s : AppEventHandler) : AppEventHandler :=
  mkHandler (mouse_over s) v (mouse_position s) (_capture_print s) (posted s).

Definition set_capture_print (v : gmap nat (bool * bool)) (s : AppEventHandler)
  : AppEventHandler :=
  mkHandler (mouse_over s) (mouse_captured s) (mouse_position s) v (posted s).

Definition set_posted (v : list (nat * event)) (s : AppEventHandler) : AppEventHandler :=
  mkHandler (mouse_over s) (mouse_captured s) (mouse_position s) (_capture_print s) v.

(** A call either returns or raises; the handler is left in some state
    either way. *)
Inductive outcome :=
| Returns (s : AppEventHandler)
| Raises (s : AppEventHandler).

Definition state_of (o : outcome) : AppEventHandler :=
  match o with Returns s | Raises s => s end.

Definition and_then (o : outcome) (k : AppEventHandler → outcome) : outcome :=
  match o with
  | Returns s => k s
  | Raises s => Raises s
  end.

(** [try: body finally: cleanup] *)
Definition finally (body : outcome) (cleanup : AppEventHandler → AppEventHandler)
  : outcome :=
  match body with
  | Returns s => Returns (cleanup s)
  | Raises s => Raises (cleanup s)
  end.

(** [target.post_message(event)].  [fails target event] tells whether the
    call raises instead of delivering. *)
Definition post_message (fails : nat → event → bool) (target : nat) (e : event)
    (s : AppEventHandler) : outcome :=
  if fails target e then Raises s
  else Returns (set_posted (posted s ++ [(target, e)]) s).

Definition _set_mouse_over (fails : nat → event → bool) (widget : option nat)
    (s : AppEventHandler) : outcome :=
  match widget with
  | None =>
      match mouse_over s with
      | Some over => finally (post_message fails over Leave s) (set_mouse_over None)
      | None => Returns s
      end
  | Some w =>
      if decide (mouse_over s ≠ Some w) then
        finally
          (and_then
             (match mouse_over s with
              | Some over => post_message fails over Leave s
              | None => Returns s
              end)
             (post_message fails w Enter))
          (set_mouse_over (Some w))
      else Returns s
  end.

Definition capture_mouse (fails : nat → event → bool) (widget : option nat)
    (s : AppEventHandler) : outcome :=
  if decide (widget = mouse_captured s) then Returns s
  else
    and_then
      (match mouse_captured s with
       | Some captured => post_message fails captured (MouseRelease (mouse_position s)) s
       | None => Returns s
       end)
      (λ s,
         let s := set_mouse_captured widget s in
         match widget with
         | Some w => post_message fails w (MouseCapture (mouse_position s)) s
         | None => Returns s
         end).

(** [self._capture_print.pop(target)] *)
Definition end_capture_print (target : nat) (s : AppEventHandler)
  : AppEventHandler + exn :=
  match _capture_print s !! target with
  | Some _ => inl (set_capture_print (delete target (_capture_print s)) s)
  | None => inr (KeyError target)
  end.

Definition begin_capture_print (target : nat) (stdout stderr : bool)
    (s : AppEventHandler) : AppEventHandler + exn :=
  if negb stdout && negb stderr then end_capture_print target s
  else inl (set_capture_print (<[target := (stdout, stderr)]> (_capture_print s)) s).

(** *** Notions used in the statements *)

Inductive call :=
| SetMouseOver (widget : option nat)
| CaptureMouse (widget : option nat).

(** Every [post_message] delivers. *)
Definition delivers : nat → event → bool := λ _ _, false.

Definition step (s : AppEventHandler) (c : call) : AppEventHandler :=
  state_of (match c with
            | SetMouseOver widget => _set_mouse_over delivers widget s
            | CaptureMouse widget => capture_mouse delivers widget s
            end).

Inductive kind := IsLeave | IsEnter | IsRelease | IsCapture.

Definition kind_of (e : event) : kind :=
  match e with
  | Leave => IsLeave
  | Enter => IsEnter
  | MouseRelease _ => IsRelease
  | MouseCapture _ => IsCapture
  end.

#[global] Instance kind_eq_dec : EqDecision kind.
Proof. solve_decision. Defined.

(** How many messages of a kind a widget has been sent. *)
Definition received (target : nat) (k : kind) (log : list (nat * event)) : nat :=
  length (filter (λ p, p.1 = target ∧ kind_of p.2 = k) log).

Definition started (position : Z * Z) : AppEventHandler :=
  mkHandler None None position ∅ [].

End Mouse.

(* ===================================================================== *)
(** ** Actions and key bindings ([app_event_handler.py], lines 421-464
       and 523-595)                                                       *)
(* ===================================================================== *)

Module Actions.

Import EventHandler.
Local Open Scope nat_scope.

Inductive exn :=
| ActionError (msg : string)     (* raised by [actions.parse] *)
| NameError (name : string)
| Other (tag : nat).             (* whatever an action method raises *)

Inductive result (A : Type) :=
| Ok (value : A)
| Raise (e : exn).

Arguments Ok {A} value.
Arguments Raise {A} e.

(** A node that actions can be sent to: its attributes, as
    [getattr(node, name, None)] sees them, and its [check_action]
    ([None] and [False] both count as not enabled). *)
Record DOMNode := mkNode {
  node_id : nat;
  attributes : gmap string attribute;
  check_action : string → list Z → bool
}.

(** [(destination, action_name, params)] *)
Definition ActionParseResult : Type := string * string * list Z.

(** An action is given as text or already parsed. *)
Inductive action_ref :=
| Text (text : string)
| Parsed (parsed : ActionParseResult).

(** What the handler consults.  [parse] stands for [actions.parse] and
    [getattr_self destination] for [getattr(self, destination, None)];
    both live outside these sources. *)
Record AppEventHandler := mkHandler {
  self_node : DOMNode;
  _action_targets : gset string;
  getattr_self : string → option DOMNode;
  parse : string → result ActionParseResult
}.

(** The module imports [ActionParseResult] and [SkipAction] from
    [..actions] but not [ActionError], so both [raise ActionError(..)]
    statements end in [NameError]. *)
Definition _parse_action (app : AppEventHandler) (action : action_ref)
    (default_namespace : DOMNode) : result (DOMNode * string * list Z) :=
  match (match action with
         | Parsed parsed => Ok parsed
         | Text text => parse app text
         end) with
  | Raise e => Raise e
  | Ok (destination, action_name, params) =>
      if decide (destination ≠ "") then
        if decide (destination ∉ _action_targets app) then
          Raise (NameError "ActionError")
        else
          match getattr_self app destination with
          | None => Raise (NameError "ActionError")
          | Some action_target => Ok (action_target, action_name, params)
          end
      else Ok (default_namespace, action_name, params)
  end.

(** The first component lists the methods that were invoked, each with
    the node it was invoked on. *)
Definition run_action (app : AppEventHandler) (action : action_ref)
    (default_namespace : option DOMNode) : list (nat * string) * result bool :=
  match _parse_action app action (default (self_node app) default_namespace) with
  | Raise e => ([], Raise e)
  | Ok (action_target, action_name, params) =>
      if check_action action_target action_name params then
        let '(invoked, out) :=
          _dispatch_action (attributes action_target) action_name params in
        ((λ method, (node_id action_target, method)) <$> invoked,
         match out with
         | Returns handled => Ok handled
         | Raises tag => Raise (Other tag)
         end)
      else ([], Ok false)
  end.

Record Binding := mkBinding {
  action : action_ref;
  priority : bool
}.

(** One round of the loop of [check_bindings]: [None] when the namespace
    has no binding of the wanted priority for the key, otherwise what
    running the bound action gave. *)
Definition attempt (app : AppEventHandler) (key : string) (priority_ : bool)
    (entry : DOMNode * gmap string Binding)
  : option (list (nat * string) * result bool) :=
  let '(namespace, bindings) := entry in
  match bindings !! key with
  | Some binding =>
      if bool_decide (priority binding = priority_)
      then Some (run_action app (action binding) (Some namespace))
      else None
  | None => None
  end.

Fixpoint check_bindings_loop (app : AppEventHandler) (key : string)
    (priority_ : bool) (chain : list (DOMNode * gmap string Binding))
  : list (nat * string) * result bool :=
  match chain with
  | [] => ([], Ok false)
  | entry :: rest =>
      match attempt app key priority_ entry with
      | Some (invoked, Ok true) => (invoked, Ok true)
      | Some (invoked, Ok false) =>
          let '(later, out) := check_bindings_loop app key priority_ rest in
          (invoked ++ later, out)
      | Some (invoked, Raise e) => (invoked, Raise e)
      | None => check_bindings_loop app key priority_ rest
      end
  end.

(** [_binding_chain] and [_modal_binding_chain] are those of the current
    screen. *)
Definition check_bindings (app : AppEventHandler)
    (_binding_chain _modal_binding_chain : list (DOMNode * gmap string Binding))
    (key : string) (priority_ : bool) : list (nat * string) * result bool :=
  check_bindings_loop app key priority_
    (if priority_ then reverse _binding_chain else _modal_binding_chain).

(** *** Notions used in the statements *)

(** The methods invoked by the rounds of a part of the chain. *)
Definition invoked_by (app : AppEventHandler) (key : string) (priority_ : bool)
    (chain : list (DOMNode * gmap string Binding)) : list (nat * string) :=
  concat ((λ entry, match attempt app key priority_ entry with
                    | Some (invoked, _) => invoked
                    | None => []
                    end) <$> chain).

(** A round that does not end the loop: no binding to try, or the action
    was not handled. *)
Definition passes (app : AppEventHandler) (key : string) (priority_ : bool)
    (entry : DOMNode * gmap string Binding) : Prop :=
  match attempt app key priority_ entry with
  | None => True
  | Some (_, Ok false) => True
  | Some _ => False
  end.

(** An example: a screen whose [quit] action is handled, bound to [q]
    on the screen. *)
Definition quitting_screen : DOMNode :=
  mkNode 1 {[ "action_quit" := Callable (λ _, Completes) ]} (λ _ _, true).

Definition plain_app : AppEventHandler :=
  mkHandler (mkNode 0 ∅ (λ _ _, true)) {[ "app"; "screen"; "focused" ]}
            (λ _, None) (λ text, Ok ("", text, [])).

End Actions.

(* ===================================================================== *)
(** ** Modes ([app_screen_controller.py], lines 150-251)                  *)
(* ===================================================================== *)

Module Modes.

Import Core.
Local Open Scope nat_scope.

(** A value of the [MODES] dict: the name of an installed screen, a
    screen, or a callable that creates the screen [creates]. *)
Inductive base_screen :=
| BaseName (name : string)
| BaseScreen (screen_ : nat)
| BaseFactory (creates : nat).

Inductive exn :=
| InvalidModeError (msg : string)
| ActiveModeError (mode : string)
| FromApp (e : Core.exn).        (* the exceptions of the screen stack code *)

(** The controller: the application state of [Core], the class-level
    [MODES] dict, and the screens whose [_screen_resized] was called, in
    order. *)
Record Controller := mkController {
  app : App;
  MODES : list (string * base_screen);
  resized : list nat
}.

Definition set_app (v : App) (c : Controller) : Controller :=
  mkController v (MODES c) (resized c).

Definition set_MODES (v : list (string * base_screen)) (c : Controller) : Controller :=
  mkController (app c) v (resized c).

Definition set_resized (v : list nat) (c : Controller) : Controller :=
  mkController (app c) (MODES c) v.

Definition set_current_mode (v : string) (a : App) : App :=
  mkApp (_screen_stacks a) v (_installed_screens a) (_registry a) (_nodes a)
    (_parent a) (_virtual_dom a) (_running a) (focused a) (can_focus a)
    (_result_callbacks a) (futures a) (effects a).

Inductive outcome (A : Type) :=
| Returned (value : A) (c : Controller)
| Raised (e : exn) (c : Controller)
| OutOfFuel.

Arguments Returned {A} value c.
Arguments Raised {A} e c.
Arguments OutOfFuel {A}.

(** Running screen stack code on the controller's application. *)
Definition lift {A} (m : M A) (c : Controller) : outcome A :=
  match m (app c) with
  | Val x a' => Returned x (set_app a' c)
  | Exc e a' => Raised (FromApp e) (set_app a' c)
  | Diverge => OutOfFuel
  end.

Definition and_then {A B} (o : outcome A) (k : A → Controller → outcome B)
  : outcome B :=
  match o with
  | Returned x c => k x c
  | Raised e c => Raised e c
  | OutOfFuel => OutOfFuel
  end.

(** [_screen() if callable(_screen) else _screen] *)
Definition new_screen (_screen : base_screen) : screen_ref :=
  match _screen with
  | BaseName name => ByName name
  | BaseScreen s => ByObject s
  | BaseFactory creates => ByObject creates
  end.

Definition _init_mode (fuel : nat) (mode : string) (c : Controller) : outcome pushed :=
  let stack := default [] (_screen_stacks (app c) !! mode) in
  match stack with
  | first :: _ =>
      Returned (AwaitMount first [])
        (set_app (set_screen_stacks (<[mode := stack]> (_screen_stacks (app c))) (app c)) c)
  | [] =>
      match dict_get mode (MODES c) with
      | None => Raised (FromApp (KeyError mode)) c
      | Some _screen =>
          lift (next <- _get_screen fuel (new_screen _screen) ;;
                let '(screen_, await_mount) := next in
                (* [stack.append(screen)] changes the list in the dict
                   when the mode has one *)
                modify (λ a, set_screen_stacks
                               (alter (λ stack, stack ++ [screen_]) mode
                                  (_screen_stacks a)) a) ;;
                emit (LoadScreenCss screen_) ;;
                modify (λ a, set_screen_stacks
                               (<[mode := [screen_]]> (_screen_stacks a)) a) ;;
                ret await_mount) c
      end
  end.

Definition switch_mode (fuel : nat) (mode : string) (c : Controller) : outcome pushed :=
  if decide (dict_get mode (MODES c) = None) then
    Raised (FromApp (UnknownModeError mode)) c
  else
    and_then (lift (current <- screen ;;
                    emit (PostMessage current ScreenSuspend) ;;
                    current <- screen ;;
                    emit (Refresh current)) c) (λ _ c,
    and_then (if decide (_screen_stacks (app c) !! mode = None)
              then _init_mode fuel mode c
              else lift (current <- screen ;; ret (AwaitMount current [])) c)
      (λ await_mount c,
    let c := set_app (set_current_mode mode (app c)) c in
    and_then (lift screen c) (λ current c,
    let c := set_resized (resized c ++ [current]) c in
    and_then (lift (current <- screen ;;
                    emit (PostMessage current ScreenResume)) c) (λ _ c,
    Returned await_mount c)))).

Definition add_mode (mode : string) (base : base_screen) (c : Controller)
  : outcome unit :=
  if decide (mode = "_default") then
    Raised (InvalidModeError "Cannot use '_default' as a custom mode.") c
  else if decide (is_Some (dict_get mode (MODES c))) then
    Raised (InvalidModeError "Duplicated mode name") c
  else Returned tt (set_MODES (dict_set mode base (MODES c)) c).

Definition remove_mode (mode : string) (c : Controller) : outcome unit :=
  if decide (mode = _current_mode (app c)) then Raised (ActiveModeError mode) c
  else if decide (dict_get mode (MODES c) = None) then
    Raised (FromApp (UnknownModeError mode)) c
  else
    let c := set_MODES (dict_del mode (MODES c)) c in
    match _screen_stacks (app c) !! mode with
    | None => Returned tt c
    | Some stack =>
        lift (modify (λ a, set_screen_stacks (delete mode (_screen_stacks a)) a) ;;
              for_each (reverse stack) (λ screen_, _replace_screen screen_ ;; ret tt)) c
    end.

(** *** Notions used in the statements *)

Inductive call :=
| AddMode (mode : string) (base : base_screen)
| RemoveMode (mode : string)
| SwitchMode (mode : string).

(** The controller after a call, whether it returned or raised. *)
Definition after {A} (o : outcome A) : option Controller :=
  match o with
  | Returned _ c | Raised _ c => Some c
  | OutOfFuel => None
  end.

Definition run_call (fuel : nat) (c : Controller) (k : call) : option Controller :=
  match k with
  | AddMode mode base => after (add_mode mode base c)
  | RemoveMode mode => after (remove_mode mode c)
  | SwitchMode mode => after (switch_mode fuel mode c)
  end.

Fixpoint run_calls (fuel : nat) (calls : list call) (c : Controller)
  : option Controller :=
  match calls with
  | [] => Some c
  | k :: calls' =>
      match run_call fuel c k with
      | Some c' => run_calls fuel calls' c'
      | None => None
      end
  end.

(** [__init__] with the class-level [MODES] and [SCREENS]. *)
Definition start (modes : list (string * base_screen))
    (SCREENS : list (string * installed)) : Controller :=
  mkController (init SCREENS) modes [].

End Modes.

(* ===================================================================== *)
(** * Properties                                                          *)
(* ===================================================================== *)

Section RendererProperties.
Import Renderer.

(** The block run by a scope is [exec_block]. *)
Lemma exec_Batch body r :
  exec (Batch body) r = batch_update (exec_block body) r.
Proof.
  simpl. unfold batch_update. f_equal.
Qed.

(** Induction over statements and the blocks nested in them. *)
Lemma stmt_block_ind (P : stmt → Prop) :
  (∀ tag, P (Work tag)) →
  (∀ tag, P (Raise tag)) →
  (∀ body, Forall P body → P (Batch body)) →
  ∀ s, P s.
Proof.
  intros HW HR HB. fix IH 1. intros [tag|tag|body].
  - apply HW.
  - apply HR.
  - apply HB. induction body as [|s body IHb]; constructor; [apply IH | exact IHb].
Qed.

Lemma exec_block_quiet body :
  Forall quiet body →
  ∀ r r' raised,
    0 < _batch_count r →
    exec_block body r = (r', raised) →
    _batch_count r' = _batch_count r ∧
    raised ≠ Some AssertionError ∧
    ∃ tr, effects r' = effects r ++ tr ∧ CheckIdle ∉ tr.
Proof.
  induction 1 as [|s body Hs _ IH]; intros r r' raised Hpos Hrun; simpl in Hrun.
  - injection Hrun as <- <-. repeat split; [done|].
    exists []. rewrite app_nil_r. split; [done | apply not_elem_of_nil].
  - destruct (exec s r) as [r1 [e|]] eqn:Hexec.
    + injection Hrun as <- <-. exact (Hs _ _ _ Hpos Hexec).
    + destruct (Hs _ _ _ Hpos Hexec) as (Hc1 & _ & tr1 & Htr1 & Hno1).
      destruct (IH r1 r' raised) as (Hc2 & Hr2 & tr2 & Htr2 & Hno2);
        [lia | done |].
      split; [lia|]. split; [done|].
      exists (tr1 ++ tr2). split.
      * rewrite Htr2, Htr1, app_assoc. done.
      * rewrite elem_of_app. tauto.
Qed.

Lemma exec_quiet s : quiet s.
Proof.
  induction s as [tag|tag|body IH] using stmt_block_ind;
    intros r r' raised Hpos Hrun.
  - simpl in Hrun. injection Hrun as <- <-. simpl. repeat split; [done|].
    exists [Did tag]. split; [done|]. rewrite list_elem_of_singleton. done.
  - simpl in Hrun. injection Hrun as <- <-. repeat split; [done|].
    exists []. rewrite app_nil_r. split; [done | apply not_elem_of_nil].
  - rewrite exec_Batch in Hrun. unfold batch_update in Hrun.
    destruct (exec_block body (_begin_batch r)) as [r2 e2] eqn:Hblock.
    assert (Hopen : 0 < _batch_count (_begin_batch r)) by (simpl; lia).
    destruct (exec_block_quiet body IH _ _ _ Hopen Hblock)
      as (Hc & He & tr & Htr & Hno).
    simpl in Hc, Htr. unfold _end_batch in Hrun. simpl in Hrun.
    rewrite Hc in Hrun.
    destruct (decide (0 ≤ _batch_count r + 1 - 1)) as [_|?]; [|lia].
    destruct (decide (_batch_count r + 1 - 1 = 0)) as [?|_]; [lia|].
    injection Hrun as <- <-. simpl.
    split; [lia|]. split; [done|]. exists tr. done.
Qed.

Lemma idle_checks_app r r' tr :
  effects r' = effects r ++ tr →
  idle_checks r' =
    (idle_checks r + length (filter (λ e, e = CheckIdle) tr))%nat.
Proof.
  intros H. unfold idle_checks. rewrite H, filter_app, length_app. done.
Qed.

Lemma no_idle_check_filter (tr : list effect) :
  CheckIdle ∉ tr → filter (λ e, e = CheckIdle) tr = [].
Proof.
  induction tr as [|e tr IH]; intros Hno; [done|].
  rewrite not_elem_of_cons in Hno. destruct Hno as [Hne Hno].
  rewrite filter_cons_False by congruence. auto.
Qed.

(** C2.  Entering a [batch_update] scope increments the batch counter and
    every exit, normal or by exception, decrements it.  An outermost scope
    (entered with the counter at zero) brings the counter back to zero and
    performs exactly one [check_idle], as its very last effect; a scope
    entered while another one is open restores the counter and performs no
    [check_idle] at all.  The assertion of [_end_batch] never fails. *)
Theorem batch_update_one_idle_check (body : list stmt) (r : AppRenderer) :
  _batch_count r = 0 →
  _batch_count (_begin_batch r) = _batch_count r + 1 ∧
  (∀ r0, _batch_count (fst (_end_batch r0)) = _batch_count r0 - 1) ∧
  (∃ r' raised inner,
      exec (Batch body) r = (r', raised) ∧
      raised ≠ Some AssertionError ∧
      _batch_count r' = 0 ∧
      effects r' = effects r ++ inner ++ [CheckIdle] ∧
      (CheckIdle ∉ inner) ∧
      idle_checks r' = S (idle_checks r)) ∧
  (∀ nested r1 r2 raised,
      0 < _batch_count r1 →
      exec (Batch nested) r1 = (r2, raised) →
      _batch_count r2 = _batch_count r1 ∧ idle_checks r2 = idle_checks r1).
Proof.
  intros Hzero. split; [done|]. split.
  { intros r0. unfold _end_batch. repeat case_decide; done. }
  split.
  - rewrite exec_Batch. unfold batch_update.
    destruct (exec_block body (_begin_batch r)) as [r2 e2] eqn:Hblock.
    assert (Hopen : 0 < _batch_count (_begin_batch r)) by (simpl; lia).
    assert (Hall : Forall quiet body) by (apply Forall_forall; intros; apply exec_quiet).
    destruct (exec_block_quiet body Hall _ _ _ Hopen Hblock)
      as (Hc & He & tr & Htr & Hno).
    simpl in Hc, Htr. unfold _end_batch. simpl. rewrite Hc, Hzero. simpl.
    eexists _, _, tr. split; [reflexivity|]. simpl.
    split; [by destruct e2|]. split; [done|].
    split; [by rewrite Htr, app_assoc|]. split; [done|].
    unfold idle_checks. simpl. rewrite Htr, !filter_app, !length_app.
    rewrite (no_idle_check_filter tr Hno). simpl. lia.
  - intros nested r1 r2 raised Hpos Hrun.
    destruct (exec_quiet (Batch nested) _ _ _ Hpos Hrun) as (Hc & _ & tr & Htr & Hno).
    split; [done|]. rewrite (idle_checks_app _ _ _ Htr).
    rewrite (no_idle_check_filter tr Hno). simpl. lia.
Qed.

Lemma batch_update_one_idle_check_witness :
  let body := [Work 1; Batch [Work 2; Batch [Raise 3]; Work 4]; Work 5] in
  _batch_count init = 0 ∧
  ∃ r' raised inner,
    exec (Batch body) init = (r', raised) ∧
    effects r' = effects init ++ inner ++ [CheckIdle] ∧
    CheckIdle ∉ inner.
Proof.
  intros body. split; [reflexivity|].
  destruct (batch_update_one_idle_check body init eq_refl)
    as (_ & _ & (r' & raised & inner & Hrun & _ & _ & Heff & Hno & _) & _).
  exists r', raised, inner. auto.
Defined.

Example nested_batches_run :
  exec (Batch [Work 1; Batch [Work 2; Batch [Raise 3]; Work 4]; Work 5]) init
  = (mkRenderer 0 [Did 1; Did 2; CheckIdle], Some (BodyError 3)).
Proof. reflexivity. Qed.

End RendererProperties.

Section BridgeProperties.
Import Bridge.

(** C6.  [call_from_thread] raises [RuntimeError] whenever the application
    has no running loop, raises [RuntimeError] whenever the caller is the
    application's own thread, and otherwise hands back exactly what the
    callback did: its return value, or the exception it raised. *)
Theorem call_from_thread_guards (app : App) (get_ident : Z)
    (callback : list Z → outcome) (args : list Z) :
  (_loop app = None →
     ∃ msg, call_from_thread app get_ident callback args
            = ([], Raises (RuntimeError msg))) ∧
  (_thread_id app = get_ident →
     ∃ msg, call_from_thread app get_ident callback args
            = ([], Raises (RuntimeError msg))) ∧
  (_loop app ≠ None → _thread_id app ≠ get_ident →
     (call_from_thread app get_ident callback args).2 = callback args ∧
     (∀ value, callback args = Returns value →
        (call_from_thread app get_ident callback args).2 = Returns value) ∧
     (∀ e, callback args = Raises e →
        (call_from_thread app get_ident callback args).2 = Raises e)).
Proof.
  unfold call_from_thread. repeat split.
  - intros ->. eauto.
  - intros Hsame. destruct (_loop app); [|eauto].
    rewrite decide_True by done. eauto.
  - destruct (_loop app); [|done]. by rewrite decide_False.
  - intros value <-. destruct (_loop app); [|done]. by rewrite decide_False.
  - intros e <-. destruct (_loop app); [|done]. by rewrite decide_False.
Qed.

Lemma call_from_thread_guards_witness :
  let callback := λ args : list Z, Returns (foldr Z.add 0 args) in
  let started := run_app_enter 1 100 (mkApp None 0) in
  call_from_thread (mkApp None 0) 200 callback [1; 2] =
    ([], Raises (RuntimeError "App is not running")) ∧
  (∃ msg, call_from_thread started 100 callback [1; 2] = ([], Raises (RuntimeError msg))) ∧
  (call_from_thread started 200 callback [1; 2]).2 = Returns 3.
Proof.
  intros callback started. split; [reflexivity|]. split.
  - apply (call_from_thread_guards started 100 callback [1; 2]). reflexivity.
  - apply (call_from_thread_guards started 200 callback [1; 2]); [done|done|].
    reflexivity.
Defined.

End BridgeProperties.

Section EventHandlerProperties.
Import EventHandler.

(** C8.  When the namespace has both a callable [_action_<name>] and a
    callable [action_<name>], the private one is called with the
    parameters and the public one is not: the result is [True] when the
    private method completes, [False] when it raises [SkipAction], and
    any other exception it raises propagates, whatever the public method
    would do.  Without a callable private method the public one is called
    in the same way.  So whenever the method that dispatch invokes raises
    [SkipAction], dispatch returns [False] and raises nothing.  With
    neither method callable nothing is invoked and the result is
    [False]. *)
Theorem dispatch_prefers_private_and_absorbs_skip
    (namespace : gmap string attribute) (action_name : string) (params : list Z) :
  (∀ private_method public_method,
     namespace !! ("_action_" +:+ action_name) = Some (Callable private_method) →
     namespace !! ("action_" +:+ action_name) = Some (Callable public_method) →
     (_dispatch_action namespace action_name params).1
     = ["_action_" +:+ action_name] ∧
     (private_method params = Completes →
      (_dispatch_action namespace action_name params).2 = Returns true) ∧
     (private_method params = RaisesSkipAction →
      (_dispatch_action namespace action_name params).2 = Returns false) ∧
     (∀ tag, private_method params = RaisesOther tag →
      (_dispatch_action namespace action_name params).2 = Raises tag)) ∧
  (∀ private_method,
     namespace !! ("_action_" +:+ action_name) = Some (Callable private_method) →
     private_method params = RaisesSkipAction →
     _dispatch_action namespace action_name params
     = (["_action_" +:+ action_name], Returns false)) ∧
  (∀ public_method,
     (∀ m, namespace !! ("_action_" +:+ action_name) ≠ Some (Callable m)) →
     namespace !! ("action_" +:+ action_name) = Some (Callable public_method) →
     (_dispatch_action namespace action_name params).1
     = ["action_" +:+ action_name] ∧
     (public_method params = Completes →
      (_dispatch_action namespace action_name params).2 = Returns true) ∧
     (public_method params = RaisesSkipAction →
      _dispatch_action namespace action_name params
      = (["action_" +:+ action_name], Returns false)) ∧
     (∀ tag, public_method params = RaisesOther tag →
      (_dispatch_action namespace action_name params).2 = Raises tag)) ∧
  ((∀ m, namespace !! ("_action_" +:+ action_name) ≠ Some (Callable m)) →
   (∀ m, namespace !! ("action_" +:+ action_name) ≠ Some (Callable m)) →
   _dispatch_action namespace action_name params = ([], Returns false)).
Proof.
  unfold _dispatch_action, invoke_handler.
  split; [|split; [|split]].
  - intros f g -> _. split; [done|]. split; [by intros ->|].
    split; [by intros ->|]. by intros tag ->.
  - by intros f -> ->.
  - intros g Hnone ->.
    destruct (namespace !! ("_action_" +:+ action_name)) as [[m|]|] eqn:Hp;
      [by destruct (Hnone m) | |];
      (split; [done|]); (split; [by intros ->|]);
      (split; [by intros ->|]); by intros tag ->.
  - intros Hprivate Hpublic.
    destruct (namespace !! ("_action_" +:+ action_name)) as [[m|]|] eqn:Hp;
      [by destruct (Hprivate m) | |];
      (destruct (namespace !! ("action_" +:+ action_name)) as [[m|]|] eqn:Hq;
       [by destruct (Hpublic m) | done..]).
Qed.

Lemma dispatch_prefers_private_and_absorbs_skip_witness :
  let skipping : gmap string attribute :=
    <["_action_quit" := Callable (λ _, RaisesSkipAction)]>
      (<["action_quit" := Callable (λ _, Completes)]> ∅) in
  let completing : gmap string attribute :=
    <["_action_quit" := Callable (λ _, Completes)]>
      (<["action_quit" := Callable (λ _, RaisesOther 1)]> ∅) in
  _dispatch_action skipping "quit" [] = (["_action_quit"], Returns false) ∧
  (_dispatch_action completing "quit" []).1 = ["_action_quit"] ∧
  (_dispatch_action completing "quit" []).2 = Returns true.
Proof.
  intros skipping completing. split.
  - apply (dispatch_prefers_private_and_absorbs_skip skipping "quit" []) with
      (private_method := λ _, RaisesSkipAction); reflexivity.
  - destruct (dispatch_prefers_private_and_absorbs_skip completing "quit" [])
      as [Hboth _].
    destruct (Hboth (λ _, Completes) (λ _, RaisesOther 1) eq_refl eq_refl)
      as (Hinvoked & Hdone & _).
    split; [exact Hinvoked | exact (Hdone eq_refl)].
Defined.

End EventHandlerProperties.

Section MonadLaws.
Import Core.

Lemma bind_Val {A B} (m : M A) (k : A → M B) (a : App) (r : B) (a' : App) :
  bind m k a = Val r a' → ∃ x a1, m a = Val x a1 ∧ k x a1 = Val r a'.
Proof.
  unfold bind. destruct (m a) as [x a1| |]; [eauto | done..].
Qed.

Lemma bind_run {A B} (m : M A) (k : A → M B) (a : App) (x : A) (a1 : App) :
  m a = Val x a1 → bind m k a = k x a1.
Proof. unfold bind. by intros ->. Qed.

End MonadLaws.

Section ScreenStackProperties.
Import Core.
Local Open Scope nat_scope.

Lemma removelast_snoc {A} (l : list A) (x : A) : removelast (l ++ [x]) = l.
Proof. apply removelast_last. Qed.

(** [_replace_screen] always completes on a known mode; it only adds
    effects. *)
Lemma _replace_screen_runs (a : App) (replaced : nat) (stack : list nat) :
  _screen_stacks a !! _current_mode a = Some stack →
  ∃ a',
    _replace_screen replaced a = Val replaced a' ∧
    _screen_stacks a' = _screen_stacks a ∧
    _current_mode a' = _current_mode a ∧
    _installed_screens a' = _installed_screens a ∧
    _result_callbacks a' = _result_callbacks a.
Proof.
  intros Hstack. unfold _replace_screen, bind, _screen_stack. rewrite Hstack.
  destruct (decide (stack = [])) as [->|Hne].
  - cbn. destruct (negb _ && negb _); cbn; eauto 10.
  - unfold screen at 1. rewrite Hstack.
    destruct (last stack) as [top|] eqn:Hlast;
      [|by apply last_None in Hlast].
    cbn. destruct (negb _ && negb _); cbn; eauto 10.
Qed.

(** C1.  With exactly one screen on the stack of the current mode,
    [pop_screen] raises [ScreenStackError] and changes nothing.  With two
    screens or more it returns the top screen, removes it from the stack
    of the current mode, leaves every other mode alone, and the screen
    below becomes the current screen. *)
Theorem pop_screen_underflow_or_pop (a : App) :
  (∀ only,
     _screen_stacks a !! _current_mode a = Some [only] →
     ∃ msg, pop_screen a = Exc (ScreenStackError msg) a) ∧
  (∀ below new_top top,
     _screen_stacks a !! _current_mode a = Some (below ++ [new_top; top]) →
     ∃ a',
       pop_screen a = Val top a' ∧
       _current_mode a' = _current_mode a ∧
       _screen_stacks a' !! _current_mode a = Some (below ++ [new_top]) ∧
       (∀ mode, mode ≠ _current_mode a →
                _screen_stacks a' !! mode = _screen_stacks a !! mode) ∧
       screen a' = Val new_top a').
Proof.
  split.
  - intros only Hstack. unfold pop_screen, bind, _screen_stack.
    rewrite Hstack. simpl. eauto.
  - intros below new_top top Hstack.
    assert (Hsplit : below ++ [new_top; top] = (below ++ [new_top]) ++ [top])
      by (rewrite <- app_assoc; done).
    unfold pop_screen, bind at 1, _screen_stack at 1. rewrite Hstack.
    rewrite decide_False by (rewrite length_app; simpl; lia).
    rewrite Hsplit, last_snoc.
    unfold update_current_stack, modify, bind at 1.
    set (a1 := set_screen_stacks _ a).
    assert (Hpopped : _screen_stacks a1 !! _current_mode a1 = Some (below ++ [new_top])).
    { subst a1. cbn. rewrite lookup_alter_eq, Hstack, Hsplit. cbn.
      by rewrite removelast_snoc. }
    destruct (_replace_screen_runs a1 top _ Hpopped)
      as (a2 & Hrun & Hstacks & Hmode & _ & _).
    unfold bind at 1. rewrite Hrun.
    unfold bind at 1, _pop_result_callback, modify.
    set (a3 := set_result_callbacks _ a2).
    assert (Hcurrent : screen a3 = Val new_top a3).
    { unfold screen. subst a3. cbn. rewrite Hmode, Hstacks, Hpopped.
      by rewrite last_snoc. }
    unfold bind at 1. rewrite Hcurrent. cbn.
    eexists. split; [reflexivity|]. cbn. rewrite Hmode, Hstacks.
    split; [done|]. split; [exact Hpopped|]. split.
    + intros mode Hother. subst a1. cbn. by rewrite lookup_alter_ne.
    + unfold screen. cbn. rewrite Hmode, Hstacks, Hpopped.
      by rewrite last_snoc.
Qed.

Lemma pop_screen_underflow_or_pop_witness :
  let one := set_screen_stacks {[ "_default" := [1] ]} (init []) in
  let two := set_screen_stacks {[ "_default" := [1; 2] ]} (init []) in
  (∃ msg, pop_screen one = Exc (ScreenStackError msg) one) ∧
  (∃ a', pop_screen two = Val 2 a' ∧ screen a' = Val 1 a').
Proof.
  intros one two. split.
  - apply (pop_screen_underflow_or_pop one) with 1. reflexivity.
  - destruct (pop_screen_underflow_or_pop two) as [_ Hpop].
    destruct (Hpop [] 1 2 eq_refl) as (a' & Hrun & _ & _ & _ & Hcurrent).
    exists a'. split; [exact Hrun | exact Hcurrent].
Defined.

Lemma in_some_stack_true (a : App) (s : nat) (mode : string) (stack : list nat) :
  _screen_stacks a !! mode = Some stack → s ∈ stack → in_some_stack s a = true.
Proof.
  intros Hmode Hin. unfold in_some_stack. apply bool_decide_eq_true.
  exists mode, stack. done.
Qed.

(** C10.  A screen that is on the stack of some mode cannot be
    uninstalled, neither by object nor by the name it is installed under:
    [uninstall_screen] raises [ScreenStackError] and the application,
    hence the catalog of installed screens, is left as it was.
    Uninstalling a name that is not installed returns [None]. *)
Theorem uninstall_screen_on_stack (a : App) :
  (∀ s mode stack,
     _screen_stacks a !! mode = Some stack → s ∈ stack →
     (∃ msg, uninstall_screen (ByObject s) a = Exc (ScreenStackError msg) a) ∧
     (∀ name,
        dict_get name (_installed_screens a) = Some (Instance s) →
        ∃ msg, uninstall_screen (ByName name) a = Exc (ScreenStackError msg) a)) ∧
  (∀ name,
     dict_get name (_installed_screens a) = None →
     uninstall_screen (ByName name) a = Val None a).
Proof.
  split.
  - intros s mode stack Hmode Hin.
    pose proof (in_some_stack_true a s mode stack Hmode Hin) as Hon.
    split.
    + unfold uninstall_screen, bind, gets. rewrite Hon. cbn. eauto.
    + intros name Hname. unfold uninstall_screen, bind, gets.
      rewrite Hname, Hon. cbn. eauto.
  - intros name Hname. unfold uninstall_screen, bind, gets.
    by rewrite Hname.
Qed.

Lemma uninstall_screen_on_stack_witness :
  let a := set_screen_stacks {[ "_default" := [1; 2] ]}
             (init [("help", Instance 2)]) in
  (∃ msg, uninstall_screen (ByObject 2) a = Exc (ScreenStackError msg) a) ∧
  (∃ msg, uninstall_screen (ByName "help") a = Exc (ScreenStackError msg) a) ∧
  uninstall_screen (ByName "about") a = Val None a.
Proof.
  intros a. destruct (uninstall_screen_on_stack a) as [Hon Hnone].
  destruct (Hon 2 "_default" [1; 2]) as [Hobject Hname];
    [reflexivity | set_solver |].
  split; [exact Hobject|]. split.
  - apply Hname. reflexivity.
  - apply Hnone. reflexivity.
Defined.

End ScreenStackProperties.

Section RegistrationProperties.
Import Core.
Local Open Scope nat_scope.

Lemma NodeList_insert_nat (i child : nat) (nodes : list nat) :
  i ≤ length nodes →
  NodeList_insert (Z.of_nat i) child nodes = take i nodes ++ child :: drop i nodes.
Proof.
  intros Hi. unfold NodeList_insert.
  destruct (Z.ltb_spec (Z.of_nat i) 0) as [?|_]; [lia|].
  rewrite Z.min_l by lia. by rewrite Nat2Z.id.
Qed.

(** What [_register_child] does to a child that is not registered yet,
    whatever the position: the child lands somewhere in the list of the
    parent, and the rest of the registration is the same. *)
Lemma _register_child_fresh (parent child : nat) (before after : option Z) (a : App) :
  ¬ (is_Some before ∧ is_Some after) →
  child ∉ _registry a →
  ∃ a1 front back,
    _register_child parent child before after a = Val tt a1 ∧
    nodes_of parent a = front ++ back ∧
    _nodes a1 = <[parent := front ++ child :: back]> (_nodes a) ∧
    (before = None → after = None ∨ after = Some (-1)%Z → back = []) ∧
    (∀ j : nat, before = None → after = Some (Z.of_nat j) →
                S j ≤ length (nodes_of parent a) → length front = S j) ∧
    (∀ i : nat, before = Some (Z.of_nat i) →
                i ≤ length (nodes_of parent a) → length front = i) ∧
    _registry a1 = {[child]} ∪ _registry a ∧
    _parent a1 = <[child := parent]> (_parent a) ∧
    _running a1 = {[child]} ∪ _running a ∧
    effects a1 = effects a ++ [PostRegister child; StartMessages child].
Proof.
  intros Hone Hfresh.
  assert (Hinsert : ∀ index,
    ∃ a1 front back,
      (registry <- gets _registry ;;
       if decide (child ∈ registry) then ret tt
       else
         _insert parent index child ;;
         modify (λ a, set_registry ({[child]} ∪ _registry a) a) ;;
         _attach child parent ;;
         emit (PostRegister child) ;;
         _start_messages child) a = Val tt a1 ∧
      nodes_of parent a = front ++ back ∧
      _nodes a1 = <[parent := front ++ child :: back]> (_nodes a) ∧
      (∀ i : nat, index = Z.of_nat i → i ≤ length (nodes_of parent a) →
                  length front = i) ∧
      _registry a1 = {[child]} ∪ _registry a ∧
      _parent a1 = <[child := parent]> (_parent a) ∧
      _running a1 = {[child]} ∪ _running a ∧
      effects a1 = effects a ++ [PostRegister child; StartMessages child]).
  { intros index. unfold bind at 1, gets. rewrite decide_False by done.
    eexists _, _, _. split; [reflexivity|]. cbn.
    split; [symmetry; apply take_drop|]. split; [reflexivity|].
    split; [|by rewrite <- app_assoc].
    intros i -> Hi. destruct (Z.ltb_spec (Z.of_nat i) 0) as [?|_]; [lia|].
    rewrite Z.min_l, Nat2Z.id, length_take by lia. lia. }
  assert (Happend :
    ∃ a1,
      (registry <- gets _registry ;;
       if decide (child ∈ registry) then ret tt
       else
         _append parent child ;;
         modify (λ a, set_registry ({[child]} ∪ _registry a) a) ;;
         _attach child parent ;;
         emit (PostRegister child) ;;
         _start_messages child) a = Val tt a1 ∧
      _nodes a1 = <[parent := nodes_of parent a ++ [child]]> (_nodes a) ∧
      _registry a1 = {[child]} ∪ _registry a ∧
      _parent a1 = <[child := parent]> (_parent a) ∧
      _running a1 = {[child]} ∪ _running a ∧
      effects a1 = effects a ++ [PostRegister child; StartMessages child]).
  { unfold bind at 1, gets. rewrite decide_False by done.
    eexists. split; [reflexivity|]. cbn. by rewrite <- app_assoc. }
  destruct before as [before_|], after as [after_|];
    [exfalso; apply Hone; eauto| | |]; unfold _register_child.
  - destruct (Hinsert before_)
      as (a1 & front & back & Hrun & Hsplit & Hnodes & Hlen & Hrest).
    exists a1, front, back. split; [exact Hrun|]. split; [done|].
    split; [done|]. split; [done|]. split; [done|]. split; [|done].
    intros i [= ->]. by apply Hlen.
  - destruct (decide (after_ ≠ (-1)%Z)) as [Hafter|Hafter].
    + destruct (Hinsert (after_ + 1)%Z)
        as (a1 & front & back & Hrun & Hsplit & Hnodes & Hlen & Hrest).
      exists a1, front, back. split; [exact Hrun|]. split; [done|].
      split; [done|]. split; [by intros _ [|[=]]|]. split; [|by split].
      intros j _ [= ->]. apply Hlen. lia.
    + destruct Happend as (a1 & Hrun & Hnodes & Hrest).
      exists a1, (nodes_of parent a), []. split; [exact Hrun|].
      split; [by rewrite app_nil_r|]. split; [done|]. split; [done|].
      split; [|by split]. intros j _ [= ->]. lia.
  - destruct Happend as (a1 & Hrun & Hnodes & Hrest).
    exists a1, (nodes_of parent a), []. split; [exact Hrun|].
    split; [by rewrite app_nil_r|]. split; [done|]. split; [done|].
    by split.
Qed.

(** C7.  [_register_child] raises [AppError] when both [before] and
    [after] are given.  Given [before = i] alone, a child that is not yet
    registered is inserted at index [i] of the parent's child list (so
    [before = 0] on children [[x; y]] gives [[child; x; y]]), its parent
    pointer is set, it is added to the registry and its pump is
    started.  The same holds on every other path that succeeds: with
    [after = j] the child is inserted right behind index [j], with
    [after = -1] or no position it is appended, and in each case the
    other children keep their order, no other child list changes, the
    parent pointer is set, the child joins the registry and its pump is
    started. *)
Theorem register_child_before (a : App) (parent child : nat) :
  (∀ before after,
     ∃ msg, _register_child parent child (Some before) (Some after) a
            = Exc (AppError msg) a) ∧
  (∀ i : nat,
     child ∉ _registry a →
     i ≤ length (nodes_of parent a) →
     ∃ a',
       _register_child parent child (Some (Z.of_nat i)) None a = Val tt a' ∧
       nodes_of parent a'
         = take i (nodes_of parent a) ++ child :: drop i (nodes_of parent a) ∧
       nodes_of parent a' !! i = Some child ∧
       (∀ x y, nodes_of parent a = [x; y] → i = 0 →
               nodes_of parent a' = [child; x; y]) ∧
       _parent a' !! child = Some parent ∧
       child ∈ _registry a' ∧
       child ∈ _running a' ∧
       effects a' = effects a ++ [PostRegister child; StartMessages child]) ∧
  (∀ before after,
     ¬ (is_Some before ∧ is_Some after) →
     child ∉ _registry a →
     ∃ a' front back,
       _register_child parent child before after a = Val tt a' ∧
       nodes_of parent a = front ++ back ∧
       nodes_of parent a' = front ++ child :: back ∧
       (∀ node, node ≠ parent → nodes_of node a' = nodes_of node a) ∧
       (before = None → after = None ∨ after = Some (-1)%Z → back = []) ∧
       (∀ j : nat, before = None → after = Some (Z.of_nat j) →
                   S j ≤ length (nodes_of parent a) → length front = S j) ∧
       (∀ i : nat, before = Some (Z.of_nat i) →
                   i ≤ length (nodes_of parent a) → length front = i) ∧
       _parent a' !! child = Some parent ∧
       (∀ node, node ≠ child → _parent a' !! node = _parent a !! node) ∧
       _registry a' = {[child]} ∪ _registry a ∧
       _running a' = {[child]} ∪ _running a ∧
       effects a' = effects a ++ [PostRegister child; StartMessages child]).
Proof.
  split; [|split].
  - intros before after. cbn. eauto.
  - intros i Hfresh Hi.
    unfold _register_child, bind, gets.
    rewrite decide_False by done.
    eexists. split; [reflexivity|]. cbn.
    match goal with
    | |- nodes_of parent ?a1 = _ ∧ _ =>
        assert (Hnodes : nodes_of parent a1
                         = NodeList_insert (Z.of_nat i) child (nodes_of parent a))
          by (unfold nodes_of at 1; cbn; by rewrite lookup_insert_eq);
        rewrite !Hnodes
    end.
    rewrite (NodeList_insert_nat i child _ Hi).
    split; [done|]. split.
    { rewrite lookup_app_r by (rewrite length_take; lia).
      rewrite length_take, Nat.min_l by lia. by rewrite Nat.sub_diag. }
    split.
    { intros x y Hxy ->. by rewrite Hxy. }
    split; [by rewrite lookup_insert_eq|].
    split; [set_solver|]. split; [set_solver|].
    by rewrite <- app_assoc.
  - intros before after Hone Hfresh.
    destruct (_register_child_fresh parent child before after a Hone Hfresh)
      as (a' & front & back & Hrun & Hsplit & Hnodes & Hend & Hafter & Hbefore
          & Hregistry & Hparent & Hrunning & Hlog).
    exists a', front, back. split; [exact Hrun|]. split; [exact Hsplit|].
    split; [unfold nodes_of; by rewrite Hnodes, lookup_insert_eq|].
    split; [intros node Hne; unfold nodes_of;
            by rewrite Hnodes, lookup_insert_ne|].
    split; [exact Hend|]. split; [exact Hafter|]. split; [exact Hbefore|].
    split; [by rewrite Hparent, lookup_insert_eq|].
    split; [intros node Hne; by rewrite Hparent, lookup_insert_ne|].
    done.
Qed.

Lemma register_child_before_witness :
  let a := set_nodes {[ 1 := [10; 11] ]} (init []) in
  (∃ a', _register_child 1 7 (Some 0%Z) None a = Val tt a' ∧
         nodes_of 1 a' = [7; 10; 11]) ∧
  (∃ a', _register_child 1 7 None None a = Val tt a' ∧
         nodes_of 1 a' = [10; 11; 7] ∧
         _parent a' !! 7 = Some 1 ∧ 7 ∈ _registry a' ∧ 7 ∈ _running a').
Proof.
  intros a.
  destruct (register_child_before a 1 7) as (_ & Hbefore & Hany). split.
  - destruct (Hbefore 0) as (a' & Hrun & _ & _ & Hscenario & _).
    + cbn. set_solver.
    + cbn. lia.
    + exists a'. split; [exact Hrun|]. by apply (Hscenario 10 11).
  - destruct (Hany None None)
      as (a' & front & back & Hrun & Hsplit & Hnodes & _ & Hend & _ & _
          & Hparent & _ & Hregistry & Hrunning & _).
    + by intros [[? [=]] _].
    + cbn. set_solver.
    + exists a'. split; [exact Hrun|].
      rewrite (Hend eq_refl (or_introl eq_refl)) in Hsplit, Hnodes.
      rewrite app_nil_r in Hsplit. subst front.
      split; [exact Hnodes|]. split; [exact Hparent|].
      rewrite Hregistry, Hrunning. split; set_solver.
Defined.

Lemma for_each_noop {A} (xs : list A) (body : A → M unit) (a : App) :
  (∀ x, x ∈ xs → body x a = Val tt a) → for_each xs body a = Val tt a.
Proof.
  induction xs as [|x xs IH]; intros Hbody; [done|].
  cbn. unfold bind. rewrite Hbody by (left).
  apply IH. intros y Hy. apply Hbody. by right.
Qed.

(** C9.  Registering a widget that is already in the registry changes
    nothing: whatever [before] and [after] are, [_register_child] leaves
    the application as it was (it returns, or raises [AppError] when both
    positions are given), and [_register] on registered widgets returns
    with the application as it was.  So the child list of the parent is
    the same list, without a second entry, and no pump is started. *)
Theorem registration_idempotent (a : App) (parent : nat) (before after : option Z) :
  (∀ child,
     child ∈ _registry a →
     (_register_child parent child before after a = Val tt a ∨
      ∃ msg, is_Some before ∧ is_Some after ∧
             _register_child parent child before after a = Exc (AppError msg) a) ∧
     ((before = None ∨ after = None) →
      _register_child parent child before after a = Val tt a)) ∧
  (∀ fuel widgets,
     Forall (λ widget, widget ∈ _registry a ∧ is_Widget widget = true) widgets →
     _register fuel parent widgets before after a
     = Val (if decide (APP ∈ _running a) then widgets else []) a).
Proof.
  split.
  - intros child Hin.
    assert (Hone : before = None ∨ after = None →
                   _register_child parent child before after a = Val tt a).
    { unfold _register_child, bind, gets.
      destruct before, after; intros [?|?]; try done;
        by rewrite decide_True. }
    split; [|exact Hone].
    destruct before as [b|], after as [af|]; auto.
    right. cbn. eauto 6.
  - intros fuel widgets Hall.
    destruct widgets as [|w widgets].
    { destruct fuel; cbn; by destruct (decide _). }
    set (ws := w :: widgets) in *.
    assert (Hloop : ∀ l body,
              (∀ x, x ∈ l → x ∈ ws) →
              (∀ x, x ∈ ws → body x a = Val tt a) →
              for_each l body a = Val tt a).
    { intros l body Hsub Hbody. apply for_each_noop. auto. }
    assert (Hrev : ∀ x, x ∈ reverse ws → x ∈ ws)
      by (intros x; by rewrite elem_of_reverse).
    rewrite Forall_forall in Hall.
    destruct fuel; subst ws; cbn [_register]; unfold bind at 1;
      (erewrite Hloop;
       [ unfold bind, gets; by destruct (decide _)
       | destruct before, after; auto
       | intros x Hx; destruct (Hall x Hx) as [Hreg Hwidget];
         rewrite Hwidget; cbn; unfold bind, gets; by rewrite decide_True ]).
Qed.

Lemma registration_idempotent_witness :
  let a := set_registry {[ 7 ]} (set_nodes {[ 1 := [7] ]} (init [])) in
  _register_child 1 7 (Some 0%Z) None a = Val tt a ∧
  _register 0 1 [7] (Some 0%Z) (Some 3%Z) a = Val [] a.
Proof.
  intros a.
  destruct (registration_idempotent a 1 (Some 0%Z) None) as [Hchild _].
  destruct (registration_idempotent a 1 (Some 0%Z) (Some 3%Z)) as [_ Hreg].
  split.
  - apply Hchild; [cbn; set_solver | by right].
  - apply (Hreg 0 [7]). constructor; [|constructor].
    split; [cbn; set_solver | reflexivity].
Defined.

End RegistrationProperties.

Section RegisterTermination.
Import Core Screens Registry.
Local Open Scope nat_scope.

Lemma _register_unfold (fuel : nat) (parent : nat) (widgets : list nat)
    (before after : option Z) :
  widgets ≠ [] →
  _register fuel parent widgets before after
  = (for_each (match before, after with
               | None, None => widgets
               | _, _ => reverse widgets
               end) (register_one fuel parent before after) ;;
     running <- gets _running ;;
     if decide (APP ∈ running) then ret widgets else ret []).
Proof. destruct widgets; [done|]. intros _. by destruct fuel. Qed.





End RegisterTermination.

Section PushProperties.
Import Core Screens Registry.
Local Open Scope nat_scope.

Lemma keeps_ret {A} (x : A) : keeps (ret x).
Proof. intros a r a' [= _ <-]. done. Qed.

Lemma keeps_raise {A} (e : exn) : keeps (@raise A e).
Proof. intros a r a' [=]. Qed.

Lemma keeps_diverge {A} : keeps (@diverge A).
Proof. intros a r a' [=]. Qed.

Lemma keeps_gets {A} (f : App → A) : keeps (gets f).
Proof. intros a r a' [= _ <-]. done. Qed.

Lemma keeps_modify (f : App → App) :
  (∀ a, screens_view (f a) = screens_view a) → keeps (modify f).
Proof. intros Hf a r a' [= _ <-]. apply Hf. Qed.

Lemma keeps_emit (e : effect) : keeps (emit e).
Proof. apply keeps_modify. done. Qed.

Lemma keeps_bind {A B} (m : M A) (k : A → M B) :
  keeps m → (∀ x, keeps (k x)) → keeps (bind m k).
Proof.
  intros Hm Hk a r a' Hrun. unfold bind in Hrun.
  destruct (m a) as [x a1| |] eqn:Hma; [|done..].
  rewrite (Hk x a1 r a' Hrun). eauto.
Qed.

Lemma keeps_for_each {A} (xs : list A) (body : A → M unit) :
  (∀ x, keeps (body x)) → keeps (for_each xs body).
Proof.
  intros Hbody. induction xs as [|x xs IH]; cbn.
  - apply keeps_ret.
  - apply keeps_bind; auto.
Qed.

Ltac keeps_step :=
  first
    [ apply keeps_ret | apply keeps_raise | apply keeps_diverge
    | apply keeps_gets | apply keeps_emit
    | apply keeps_modify; done
    | apply keeps_for_each; intros
    | apply keeps_bind; [|intros] ].

Lemma keeps_register_child parent child before after :
  keeps (_register_child parent child before after).
Proof.
  unfold _register_child, _insert, _append, update_nodes, _attach,
    _start_messages.
  destruct before, after; repeat (keeps_step || case_decide).
Qed.

Lemma keeps_register fuel : ∀ parent widgets before after,
  keeps (_register fuel parent widgets before after).
Proof.
  induction fuel as [|fuel IH]; intros parent widgets before after;
    (destruct widgets as [|w ws]; [apply keeps_ret|]); cbn [_register].
  - repeat (keeps_step || case_decide || apply keeps_register_child
            || match goal with
               | |- keeps (if ?b then _ else _) => destruct b
               | |- keeps (match ?l with [] => _ | _ :: _ => _ end) => destruct l
               end).
  - repeat (keeps_step || case_decide || apply keeps_register_child || apply IH
            || match goal with
               | |- keeps (if ?b then _ else _) => destruct b
               | |- keeps (match ?l with [] => _ | _ :: _ => _ end) => destruct l
               end).
Qed.

Lemma screen_Val (a a' : App) (top : nat) :
  screen a = Val top a' →
  a' = a ∧ ∃ stack, _screen_stacks a !! _current_mode a = Some stack ∧
                    last stack = Some top.
Proof.
  unfold screen. destruct (_screen_stacks a !! _current_mode a) as [stack|]; [|done].
  destruct (last stack) eqn:Hlast; [|done]. intros [= <- <-]. eauto.
Qed.

Lemma _screen_stack_Val (a a' : App) (stack : list nat) :
  _screen_stack a = Val stack a' →
  a' = a ∧ _screen_stacks a !! _current_mode a = Some stack.
Proof.
  unfold _screen_stack.
  destruct (_screen_stacks a !! _current_mode a); [|done].
  intros [= <- <-]. done.
Qed.

Lemma keeps_screen : keeps screen.
Proof. intros a r a' H. apply screen_Val in H as [-> _]. done. Qed.

Lemma keeps_get_screen screen_ : keeps (get_screen screen_).
Proof.
  unfold get_screen. destruct screen_ as [name|s]; [|apply keeps_ret].
  apply keeps_bind; [apply keeps_gets|]. intros d.
  destruct (dict_get name d) as [[s|s]|]; repeat keeps_step.
Qed.

Lemma keeps_get_screen' fuel screen_ : keeps (_get_screen fuel screen_).
Proof.
  unfold _get_screen.
  repeat (keeps_step || case_decide || apply keeps_get_screen
          || apply keeps_register).
Qed.









End PushProperties.

Section DetachProperties.
Import Core.
Local Open Scope nat_scope.

Lemma map_m_walk_children fuel ws a l a' :
  map_m (walk_children fuel) ws a = Val l a' → a' = a.
Proof.
  revert l. induction ws as [|w ws IH]; intros l; cbn.
  - by intros [= _ <-].
  - unfold bind. unfold walk_children at 1.
    destruct (walk_depth_first fuel [w] a); [|done].
    destruct (map_m (walk_children fuel) ws a) as [l' a1| |] eqn:Hrest; [|done..].
    intros [= _ <-]. eauto.
Qed.

Lemma filter_m_ancestors fuel widgets ws a l a' :
  filter_m (no_requested_ancestor fuel (list_to_set widgets)) ws a = Val l a' →
  a' = a ∧
  l = filter (λ w, unrequested_above fuel a widgets w = true) ws ∧
  Forall (λ w, is_Some (ancestors fuel w a)) ws.
Proof.
  revert l a'. induction ws as [|w ws IH]; intros l a'; cbn.
  - intros [= <- <-]. done.
  - unfold bind, no_requested_ancestor at 1.
    destruct (ancestors fuel w a) as [up|] eqn:Hup; [|done].
    destruct (filter_m _ ws a) as [l' a1| |] eqn:Hrest; [|done..].
    destruct (IH l' a1 eq_refl) as (-> & -> & Hall).
    intros [= <- <-]. split; [done|]. split; [|by constructor].
    assert (Hsame : bool_decide (Forall (λ n, n ∉ (list_to_set widgets : gset nat)) up)
                    = unrequested_above fuel a widgets w).
    { unfold unrequested_above. rewrite Hup. apply bool_decide_ext.
      apply Forall_proper; [|done]. intros n. by rewrite elem_of_list_to_set. }
    rewrite Hsame.
    destruct (unrequested_above fuel a widgets w) eqn:Hkeep;
      by destruct (decide _).
Qed.

Lemma filter_all {A} (P : A → Prop) `{!∀ x, Decision (P x)} (l : list A) :
  (∀ x, x ∈ l → P x) → filter P l = l.
Proof.
  induction l as [|x l IH]; intros HP; [done|].
  rewrite filter_cons_True by (apply HP; left).
  f_equal. apply IH. intros y Hy. apply HP. by right.
Qed.

Lemma forget_child_runs (x : nat) (a : App) :
  ∃ a',
    forget_child x a = Val tt a' ∧
    _parent a' = _parent a ∧
    ∀ p, nodes_of p a'
         = filter (λ c, ¬ (c = x ∧ _parent a !! x = Some p)) (nodes_of p a).
Proof.
  unfold forget_child, bind, gets.
  destruct (_parent a !! x) as [px|] eqn:Hpx.
  - eexists. split; [reflexivity|]. split; [done|]. intros p.
    unfold nodes_of at 1. cbn.
    destruct (decide (p = px)) as [->|Hne].
    + rewrite lookup_insert_eq. cbn. unfold NodeList_remove.
      apply list_filter_iff. intros c. naive_solver.
    + rewrite lookup_insert_ne by done. fold (nodes_of p a).
      symmetry. apply filter_all. intros c _ [_ [= ->]]. done.
  - exists a. split; [done|]. split; [done|]. intros p.
    symmetry. apply filter_all. intros c _ [_ [=]].
Qed.

Lemma forget_loop (l : list nat) : ∀ a, ∃ a',
  for_each l forget_child a = Val tt a' ∧
  _parent a' = _parent a ∧
  ∀ p, nodes_of p a'
       = filter (λ c, ¬ (c ∈ l ∧ _parent a !! c = Some p)) (nodes_of p a).
Proof.
  induction l as [|x l IH]; intros a.
  - exists a. split; [done|]. split; [done|]. intros p.
    symmetry. apply filter_all. intros c _ [Hin _]. by apply elem_of_nil in Hin.
  - destruct (forget_child_runs x a) as (a1 & Hrun1 & Hparent1 & Hnodes1).
    destruct (IH a1) as (a' & Hrun & Hparent & Hnodes).
    exists a'. split; [cbn; unfold bind; by rewrite Hrun1|].
    split; [congruence|]. intros p.
    rewrite Hnodes, Hnodes1, list_filter_filter, Hparent1.
    apply list_filter_iff. intros c. rewrite elem_of_cons. naive_solver.
Qed.

Lemma detach_loop (l : list nat) : ∀ a, ∃ a',
  for_each l _detach a = Val tt a' ∧
  _nodes a' = _nodes a ∧
  ∀ n, _parent a' !! n = if decide (n ∈ l) then None else _parent a !! n.
Proof.
  induction l as [|x l IH]; intros a.
  - exists a. split; [done|]. split; [done|]. intros n.
    rewrite decide_False; [done|]. apply not_elem_of_nil.
  - destruct (IH (set_parent (delete x (_parent a)) a)) as (a' & Hrun & Hnodes & Hparent).
    exists a'. split; [exact Hrun|]. split; [exact Hnodes|]. intros n.
    rewrite Hparent. cbn.
    destruct (decide (n ∈ l)) as [Hin|Hnotin].
    + rewrite decide_True; [done|]. by right.
    + destruct (decide (n = x)) as [->|Hne].
      * rewrite lookup_delete_eq. rewrite decide_True; [done|]. by left.
      * rewrite lookup_delete_ne by done.
        rewrite decide_False; [done|]. rewrite elem_of_cons. naive_solver.
Qed.

Lemma ancestors_mono (a : App) (fuel : nat) : ∀ fuel' n up,
  ancestors fuel n a = Some up → fuel ≤ fuel' → ancestors fuel' n a = Some up.
Proof.
  induction fuel as [|fuel IH]; intros fuel' n up Hup Hle.
  - destruct fuel'; cbn in *; destruct (_parent a !! n); done.
  - destruct fuel' as [|fuel']; [lia|]. cbn in *.
    destruct (_parent a !! n) as [p|]; [|done].
    destruct (ancestors fuel p a) as [up'|] eqn:Hp; [|done].
    rewrite (IH fuel' p up' Hp) by lia. done.
Qed.

(** The ancestors of an ancestor are the rest of the chain. *)
Lemma ancestors_suffix (a : App) (l1 : list nat) : ∀ fuel n t l2,
  ancestors fuel n a = Some (l1 ++ t :: l2) → ancestors fuel t a = Some l2.
Proof.
  induction l1 as [|p l1 IH]; intros fuel n t l2 Hup;
    destruct fuel as [|fuel]; cbn in Hup;
    destruct (_parent a !! n) as [q|]; try done;
    destruct (ancestors fuel q a) as [up|] eqn:Hq; try done;
    injection Hup as -> ->.
  - apply (ancestors_mono a fuel); [done | lia].
  - apply (ancestors_mono a fuel); [by apply (IH fuel p) | lia].
Qed.

(** Every requested widget has a topmost requested ancestor-or-self. *)
Lemma topmost_requested (fuel : nat) (a : App) (widgets : list nat) (k : nat) :
  ∀ w up,
    length up ≤ k → w ∈ widgets → ancestors fuel w a = Some up →
    ∃ t, t ∈ w :: up ∧ t ∈ widgets ∧ unrequested_above fuel a widgets t = true.
Proof.
  induction k as [|k IH]; intros w up Hlen Hw Hup.
  - destruct up; [|cbn in Hlen; lia].
    exists w. split; [by left|]. split; [done|].
    unfold unrequested_above. rewrite Hup. by apply bool_decide_eq_true.
  - destruct (decide (Forall (λ n, n ∉ widgets) up)) as [Hfree|Hsome].
    + exists w. split; [by left|]. split; [done|].
      unfold unrequested_above. rewrite Hup. by apply bool_decide_eq_true.
    + apply not_Forall_Exists in Hsome; [|apply _].
      apply Exists_exists in Hsome as (n & Hn & Hreq).
      assert (Hreq' : n ∈ widgets) by (by apply dec_stable).
      apply list_elem_of_split in Hn as (l1 & l2 & ->).
      destruct (IH n l2) as (t & Ht & Htw & Htop);
        [rewrite length_app in Hlen; cbn in Hlen; lia | done
        | by apply (ancestors_suffix a l1 fuel w) |].
      exists t. split; [|done].
      right. rewrite elem_of_app. right. exact Ht.
Qed.

Lemma ancestors_ext (a a0 : App) (fuel : nat) :
  _parent a0 = _parent a → ∀ n, ancestors fuel n a0 = ancestors fuel n a.
Proof.
  intros Hsame. induction fuel as [|fuel IH]; intros n; cbn; rewrite Hsame.
  - done.
  - destruct (_parent a !! n); [|done]. by rewrite IH.
Qed.

Lemma detach_from_dom_runs (fuel : nat) (widgets pruned : list nat) (a a' : App) :
  _detach_from_dom fuel widgets a = Val pruned a' →
  pruned = filter (λ w, unrequested_above fuel a widgets w = true) widgets ∧
  Forall (λ w, is_Some (ancestors fuel w a)) widgets ∧
  (∀ p, nodes_of p a'
        = filter (λ c, ¬ (c ∈ pruned ∧ _parent a !! c = Some p)) (nodes_of p a)) ∧
  (∀ n, _parent a' !! n = if decide (n ∈ pruned) then None else _parent a !! n).
Proof.
  intros H. unfold _detach_from_dom in H.
  apply bind_Val in H as (everything & a1 & Hwalk & H).
  apply map_m_walk_children in Hwalk as ->.
  apply bind_Val in H as (current & a2 & Hscreen & H).
  apply screen_Val in Hscreen as [-> _].
  apply bind_Val in H as (focused_ & a3 & [= <- <-] & H).
  apply bind_Val in H as ([] & a4 & Hfocus & H).
  assert (Hsame : _parent a4 = _parent a ∧ _nodes a4 = _nodes a).
  { destruct (focused a !! current); [case_decide|];
      by injection Hfocus as <-. }
  destruct Hsame as [Hparent4 Hnodes4].
  apply bind_Val in H as (pruned' & a5 & Hfilter & H).
  apply filter_m_ancestors in Hfilter as (-> & -> & Hall).
  assert (Hanc : ∀ n, ancestors fuel n a4 = ancestors fuel n a)
    by (by apply ancestors_ext).
  assert (Hkeep : ∀ w, unrequested_above fuel a4 widgets w
                      = unrequested_above fuel a widgets w)
    by (intros w; unfold unrequested_above; by rewrite Hanc).
  apply bind_Val in H as ([] & a6 & Hforget & H).
  apply bind_Val in H as ([] & a7 & Hdetach & H).
  injection H as <- <-.
  set (pruned := filter (λ w, unrequested_above fuel a4 widgets w = true) widgets) in *.
  destruct (forget_loop pruned a4) as (a6' & Hrun6 & Hparent6 & Hnodes6).
  pose proof (eq_trans (eq_sym Hforget) Hrun6) as [= ->].
  destruct (detach_loop pruned a6') as (a7' & Hrun7 & Hnodes7 & Hparent7).
  rewrite Hrun7 in Hdetach. injection Hdetach as ->.
  assert (Hpruned : pruned = filter (λ w, unrequested_above fuel a widgets w = true) widgets).
  { subst pruned. apply list_filter_iff. intros w. by rewrite Hkeep. }
  split; [done|]. split.
  { eapply Forall_impl; [exact Hall|]. intros w. cbn. by rewrite Hanc. }
  split.
  - intros p. unfold nodes_of at 1. rewrite Hnodes7. fold (nodes_of p a6').
    rewrite Hnodes6, Hparent4. unfold nodes_of. by rewrite Hnodes4.
  - intros n. by rewrite Hparent7, Hparent6, Hparent4.
Qed.

Lemma walk_depth_first_mono (a : App) (fuel : nat) : ∀ fuel' stack visited,
  walk_depth_first fuel stack a = Some visited → fuel ≤ fuel' →
  walk_depth_first fuel' stack a = Some visited.
Proof.
  induction fuel as [|fuel IH]; intros fuel' stack visited Hrun Hle.
  - destruct stack; [|done]. by destruct fuel'.
  - destruct stack as [|n stack]; [by destruct fuel'|].
    destruct fuel' as [|fuel']; [lia|]. cbn in *.
    destruct (walk_depth_first fuel _ a) as [l|] eqn:Hl; [|done].
    rewrite (IH fuel' _ l Hl) by lia. done.
Qed.

Lemma map_m_mono {A B} (f g : A → M B) (xs : list A) :
  (∀ x a r a1, f x a = Val r a1 → g x a = Val r a1) →
  ∀ a r a', map_m f xs a = Val r a' → map_m g xs a = Val r a'.
Proof.
  intros Hfg. induction xs as [|x xs IH]; intros a r a' H; [done|]. cbn in *.
  apply bind_Val in H as (y & a1 & Hy & H).
  apply bind_Val in H as (ys & a2 & Hys & H).
  rewrite (bind_run _ _ _ _ _ (Hfg _ _ _ _ Hy)).
  rewrite (bind_run _ _ _ _ _ (IH _ _ _ Hys)). exact H.
Qed.

Lemma filter_m_mono {A} (f g : A → M bool) (xs : list A) :
  (∀ x a r a1, f x a = Val r a1 → g x a = Val r a1) →
  ∀ a r a', filter_m f xs a = Val r a' → filter_m g xs a = Val r a'.
Proof.
  intros Hfg. induction xs as [|x xs IH]; intros a r a' H; [done|]. cbn in *.
  apply bind_Val in H as (y & a1 & Hy & H).
  apply bind_Val in H as (ys & a2 & Hys & H).
  rewrite (bind_run _ _ _ _ _ (Hfg _ _ _ _ Hy)).
  rewrite (bind_run _ _ _ _ _ (IH _ _ _ Hys)). exact H.
Qed.

(** Once the fuel suffices, more fuel changes nothing. *)
Lemma detach_from_dom_fuel (fuel fuel' : nat) (widgets pruned : list nat) (a a' : App) :
  _detach_from_dom fuel widgets a = Val pruned a' → fuel ≤ fuel' →
  _detach_from_dom fuel' widgets a = Val pruned a'.
Proof.
  intros H Hle. unfold _detach_from_dom in *.
  apply bind_Val in H as (everything & a1 & Hwalk & H).
  rewrite (bind_run _ _ _ everything a1).
  2:{ revert Hwalk. apply map_m_mono. intros x a0 r a2. unfold walk_children.
      destruct (walk_depth_first fuel [x] a0) as [l|] eqn:Hl; [|done].
      by rewrite (walk_depth_first_mono a0 fuel fuel' _ l Hl Hle). }
  apply bind_Val in H as (current & a2 & Hscreen & H).
  rewrite (bind_run _ _ _ _ _ Hscreen).
  apply bind_Val in H as (focused_ & a3 & Hfocused & H).
  rewrite (bind_run _ _ _ _ _ Hfocused).
  apply bind_Val in H as (u & a4 & Hfocus & H).
  rewrite (bind_run _ _ _ _ _ Hfocus).
  apply bind_Val in H as (pruned' & a5 & Hfilter & H).
  rewrite (bind_run _ _ _ pruned' a5); [exact H|].
  revert Hfilter. apply filter_m_mono. intros x a0 r a6.
  unfold no_requested_ancestor.
  destruct (ancestors fuel x a0) as [up|] eqn:Hup; [|done].
  by rewrite (ancestors_mono a0 fuel fuel' x up Hup Hle).
Qed.

Lemma map_m_walk_children_runs (fuel : nat) (ws : list nat) (a : App) :
  Forall (λ w, is_Some (walk_depth_first fuel [w] a)) ws →
  ∃ l, map_m (walk_children fuel) ws a = Val l a.
Proof.
  induction 1 as [|w ws [visited Hw] _ [l IH]]; [by exists []|].
  eexists. cbn [map_m]. unfold bind at 1, walk_children at 1. rewrite Hw.
  by rewrite (bind_run _ _ _ _ _ IH).
Qed.

Lemma filter_m_ancestors_runs (fuel : nat) (request : gset nat) (ws : list nat)
    (a : App) :
  Forall (λ w, is_Some (ancestors fuel w a)) ws →
  ∃ l, filter_m (no_requested_ancestor fuel request) ws a = Val l a.
Proof.
  induction 1 as [|w ws [up Hw] _ [l IH]]; [by exists []|].
  eexists. cbn [filter_m]. unfold bind at 1, no_requested_ancestor at 1.
  rewrite Hw. by rewrite (bind_run _ _ _ _ _ IH).
Qed.

(** With a current screen, and fuel for the walks below the requested
    widgets and for their ancestor chains, [_detach_from_dom] returns. *)
Lemma detach_from_dom_returns (fuel : nat) (widgets : list nat) (a : App)
    (below : list nat) (current : nat) :
  _screen_stacks a !! _current_mode a = Some (below ++ [current]) →
  Forall (λ w, is_Some (walk_depth_first fuel [w] a)) widgets →
  Forall (λ w, is_Some (ancestors fuel w a)) widgets →
  ∃ pruned a', _detach_from_dom fuel widgets a = Val pruned a'.
Proof.
  intros Hstack Hwalk Hup. unfold _detach_from_dom.
  destruct (map_m_walk_children_runs fuel widgets a Hwalk) as [everything Hrun1].
  rewrite (bind_run _ _ _ _ _ Hrun1).
  assert (Hscreen : screen a = Val current a)
    by (unfold screen; by rewrite Hstack, last_snoc).
  rewrite (bind_run _ _ _ _ _ Hscreen).
  unfold bind at 1, gets at 1.
  assert (Hfocus : ∃ a4,
    (match focused a !! current with
     | Some widget =>
         if decide (widget ∈ (list_to_set (concat everything) : gset nat)) then
           avoiding <- gets (λ a, filter (λ n, n ∈ can_focus a)
                                    (list_to_set (concat everything) : gset nat)) ;;
           emit (ResetFocus widget avoiding)
         else ret tt
     | None => ret tt
     end) a = Val tt a4 ∧ _parent a4 = _parent a).
  { destruct (focused a !! current); [case_decide|]; by eexists. }
  destruct Hfocus as (a4 & Hrun4 & Hparent4).
  rewrite (bind_run _ _ _ _ _ Hrun4).
  assert (Hup4 : Forall (λ w, is_Some (ancestors fuel w a4)) widgets).
  { eapply Forall_impl; [exact Hup|]. intros w. cbn.
    by rewrite (ancestors_ext a a4 fuel Hparent4). }
  destruct (filter_m_ancestors_runs fuel (list_to_set widgets) widgets a4 Hup4)
    as [pruned Hrun5].
  rewrite (bind_run _ _ _ _ _ Hrun5).
  destruct (forget_loop pruned a4) as (a6 & Hrun6 & _).
  change (for_each pruned forget_child a4 = Val () a6) in Hrun6.
  unfold forget_child in Hrun6. rewrite (bind_run _ _ _ _ _ Hrun6).
  destruct (detach_loop pruned a6) as (a7 & Hrun7 & _).
  rewrite (bind_run _ _ _ _ _ Hrun7). by eexists _, _.
Qed.

(** On a well-formed DOM the fuel conditions can be met: parent pointers
    that go down in some rank give every ancestor chain within that
    rank, and child lists that weigh less than their node give every
    walk within the weight of its stack. *)
Lemma ancestors_returns (a : App) (rank : nat → nat) :
  (∀ n p, _parent a !! n = Some p → rank p < rank n) →
  ∀ fuel n, rank n ≤ fuel → is_Some (ancestors fuel n a).
Proof.
  intros Hrank. induction fuel as [|fuel IH]; intros n Hn.
  - cbn. destruct (_parent a !! n) as [p|] eqn:Hp; [|by eexists].
    apply Hrank in Hp. lia.
  - cbn. destruct (_parent a !! n) as [p|] eqn:Hp; [|by eexists].
    apply Hrank in Hp. destruct (IH p) as [up ->]; [lia|]. by eexists.
Qed.

Lemma walk_depth_first_returns (a : App) (weight : nat → nat) :
  (∀ n, sum_list_with weight (nodes_of n a) < weight n) →
  ∀ fuel stack,
    sum_list_with weight stack ≤ fuel → is_Some (walk_depth_first fuel stack a).
Proof.
  intros Hweight. induction fuel as [|fuel IH]; intros stack Hstack.
  - destruct stack as [|node rest]; [by eexists|].
    cbn in Hstack. specialize (Hweight node). lia.
  - destruct stack as [|node rest]; [by eexists|]. cbn.
    destruct (IH (nodes_of node a ++ rest)) as [visited ->]; [|by eexists].
    rewrite sum_list_with_app. cbn in Hstack. specialize (Hweight node). lia.
Qed.

Lemma detach_from_dom_returns_on_tree (rank weight : nat → nat) (fuel : nat)
    (widgets : list nat) (a : App) (below : list nat) (current : nat) :
  _screen_stacks a !! _current_mode a = Some (below ++ [current]) →
  (∀ n p, _parent a !! n = Some p → rank p < rank n) →
  (∀ n, sum_list_with weight (nodes_of n a) < weight n) →
  (∀ w, w ∈ widgets → rank w ≤ fuel ∧ weight w ≤ fuel) →
  ∃ pruned a', _detach_from_dom fuel widgets a = Val pruned a'.
Proof.
  intros Hstack Hrank Hweight Hfuel.
  apply (detach_from_dom_returns fuel widgets a below current Hstack);
    apply Forall_forall; intros w Hw; destruct (Hfuel w Hw) as [Hr Hwt].
  - apply (walk_depth_first_returns a weight Hweight). cbn. lia.
  - by apply (ancestors_returns a rank Hrank).
Qed.

(** C4.  Given a current screen and fuel for the walks below the
    requested widgets and for their ancestor chains, [_detach_from_dom]
    returns, and it detaches exactly the requested widgets that have no
    ancestor among the requested ones: they are what it returns, each of
    them is taken out of the child list of its parent and loses its
    parent pointer, and no other child list or parent pointer changes.
    A widget requested together with one of its ancestors is not detached
    on its own: it keeps its parent pointer and its place in its parent's
    child list.  Every requested widget is, or lies below, a detached one.
    The outcome does not depend on the fuel once the fuel suffices. *)
Theorem detach_from_dom_minimal (fuel : nat) (widgets : list nat) (a : App)
    (below : list nat) (current : nat) :
  _screen_stacks a !! _current_mode a = Some (below ++ [current]) →
  Forall (λ w, is_Some (walk_depth_first fuel [w] a)) widgets →
  Forall (λ w, is_Some (ancestors fuel w a)) widgets →
  ∃ pruned a',
    _detach_from_dom fuel widgets a = Val pruned a' ∧
    (∀ w, w ∈ pruned ↔
          w ∈ widgets ∧
          ∃ up, ancestors fuel w a = Some up ∧ ∀ n, n ∈ up → n ∉ widgets) ∧
    (∀ p, nodes_of p a'
          = filter (λ c, ¬ (c ∈ pruned ∧ _parent a !! c = Some p)) (nodes_of p a)) ∧
    (∀ n, _parent a' !! n = if decide (n ∈ pruned) then None else _parent a !! n) ∧
    (∀ p c up,
       p ∈ widgets → c ∈ widgets → ancestors fuel c a = Some up → p ∈ up →
       (c ∉ pruned) ∧
       _parent a' !! c = _parent a !! c ∧
       ∀ q, c ∈ nodes_of q a → c ∈ nodes_of q a') ∧
    (∀ w, w ∈ widgets →
          ∃ t up, ancestors fuel w a = Some up ∧ t ∈ w :: up ∧ t ∈ pruned) ∧
    (∀ fuel', fuel ≤ fuel' → _detach_from_dom fuel' widgets a = Val pruned a').
Proof.
  intros Hstack Hwalk Hup.
  destruct (detach_from_dom_returns fuel widgets a below current Hstack Hwalk Hup)
    as (pruned & a' & Hrun).
  exists pruned, a'. split; [exact Hrun|].
  destruct (detach_from_dom_runs _ _ _ _ _ Hrun) as (Hpruned & Hall & Hnodes & Hparent).
  assert (Hin : ∀ w, w ∈ pruned ↔
            w ∈ widgets ∧
            ∃ up, ancestors fuel w a = Some up ∧ ∀ n, n ∈ up → n ∉ widgets).
  { intros w. rewrite Hpruned, list_elem_of_filter. unfold unrequested_above.
    split.
    - intros [Hkeep Hw]. split; [done|].
      destruct (ancestors fuel w a) as [up|]; [|done].
      exists up. split; [done|]. apply bool_decide_eq_true in Hkeep.
      by apply Forall_forall.
    - intros [Hw (up & -> & Hfree)]. split; [|done].
      apply bool_decide_eq_true. by apply Forall_forall. }
  split; [exact Hin|]. split; [exact Hnodes|]. split; [exact Hparent|]. split.
  - intros p c up Hp Hc Hupc Hpup.
    assert (Hnot : c ∉ pruned).
    { rewrite Hin. intros [_ (up' & Hup' & Hfree)].
      rewrite Hupc in Hup'. injection Hup' as <-. by apply (Hfree p). }
    split; [done|]. split.
    + rewrite Hparent. by rewrite decide_False.
    + intros q Hq. rewrite Hnodes, list_elem_of_filter. split; [|done].
      by intros [? _].
  - split; [|intros fuel' Hle; by apply (detach_from_dom_fuel fuel)].
    intros w Hw. rewrite Forall_forall in Hall.
    destruct (Hall w Hw) as [up Hupw].
    destruct (topmost_requested fuel a widgets (length up) w up)
      as (t & Ht & Htw & Htop); [done..|].
    exists t, up. split; [done|]. split; [done|].
    rewrite Hpruned, list_elem_of_filter. done.
Qed.

Lemma detach_from_dom_minimal_witness :
  ∃ a', _detach_from_dom 4 [3; 2] family = Val [2] a' ∧
        nodes_of 1 a' = [4] ∧ nodes_of 2 a' = [3] ∧
        _parent a' !! 3 = Some 2 ∧ _parent a' !! 2 = None.
Proof.
  destruct (detach_from_dom_minimal 4 [3; 2] family [] 1 eq_refl)
    as (pruned & a' & Hrun & _ & Hnodes & Hparent & _).
  - repeat (constructor; [eexists; vm_compute; reflexivity|]). constructor.
  - repeat (constructor; [eexists; vm_compute; reflexivity|]). constructor.
  - assert (pruned = [2]) as -> by (vm_compute in Hrun; congruence).
    exists a'. split; [exact Hrun|].
    rewrite !Hnodes, !Hparent. vm_compute. done.
Defined.

End DetachProperties.

Section PruneProperties.
Import Core.
Local Open Scope nat_scope.




Lemma elem_of_concat {A} (x : A) (ls : list (list A)) :
  x ∈ concat ls ↔ ∃ l, l ∈ ls ∧ x ∈ l.
Proof.
  induction ls as [|l ls IH]; cbn.
  - split; [by intros ?%elem_of_nil | by intros (l & ?%elem_of_nil & _)].
  - rewrite elem_of_app, IH. split.
    + intros [Hx|(l' & Hl' & Hx)]; [exists l | exists l'];
        (split; [|done]); [by left | by right].
    + intros (l' & Hl' & Hx). apply elem_of_cons in Hl' as [->|Hl']; eauto.
Qed.





















End PruneProperties.

Section MoreScreenProperties.
Import Core Screens.
Local Open Scope nat_scope.

Lemma _replace_screen_effects (a : App) (replaced : nat) (stack : list nat) :
  _screen_stacks a !! _current_mode a = Some stack →
  _replace_screen replaced a
  = Val replaced
      (set_effects
         (effects a
          ++ replaced_effects (last stack) replaced
               (negb (is_screen_installed (ByObject replaced) a)
                && negb (in_some_stack replaced a))) a).
Proof.
  intros Hstack. unfold _replace_screen, bind, _screen_stack. rewrite Hstack.
  unfold replaced_effects.
  destruct (decide (stack = [])) as [->|Hne].
  - cbn. unfold in_some_stack. cbn.
    destruct (negb _ && negb _); cbn; by rewrite <- ?app_assoc.
  - unfold screen at 1. rewrite Hstack.
    destruct (last stack) as [top|] eqn:Hlast; [|by apply last_None in Hlast].
    cbn. unfold in_some_stack. cbn.
    destruct (negb _ && negb _); cbn; by rewrite <- ?app_assoc.
Qed.

Lemma in_some_stack_spec (a : App) (s : nat) :
  in_some_stack s a = true
  ↔ ∃ mode stack, _screen_stacks a !! mode = Some stack ∧ s ∈ stack.
Proof. unfold in_some_stack. by rewrite bool_decide_eq_true. Qed.

(** The state [pop_screen] ends in, written out. *)
Lemma pop_screen_runs (a : App) (below : list nat) (new_top top : nat) :
  _screen_stacks a !! _current_mode a = Some (below ++ [new_top; top]) →
  let a1 := set_screen_stacks
              (alter (λ l, removelast l) (_current_mode a) (_screen_stacks a)) a in
  let removed := negb (is_screen_installed (ByObject top) a)
                 && negb (in_some_stack top a1) in
  pop_screen a
  = Val top
      (set_effects
         ((effects a ++ replaced_effects (Some new_top) top removed)
          ++ [PostMessage new_top ScreenResume])
         (set_result_callbacks
            (alter (λ l, removelast l) top (_result_callbacks a)) a1)).
Proof.
  intros Hstack a1 removed.
  assert (Hsplit : below ++ [new_top; top] = (below ++ [new_top]) ++ [top])
    by (by rewrite <- app_assoc).
  unfold pop_screen, bind at 1, _screen_stack at 1. rewrite Hstack.
  rewrite decide_False by (rewrite length_app; simpl; lia).
  rewrite Hsplit, last_snoc.
  unfold update_current_stack, modify, bind at 1. fold a1.
  assert (Hpopped : _screen_stacks a1 !! _current_mode a1 = Some (below ++ [new_top])).
  { subst a1. cbn. rewrite lookup_alter_eq, Hstack, Hsplit. cbn.
    by rewrite removelast_snoc. }
  unfold bind at 1. rewrite (_replace_screen_effects a1 top _ Hpopped).
  rewrite last_snoc.
  unfold bind at 1, _pop_result_callback, modify, bind at 1.
  unfold screen at 1. cbn [set_result_callbacks set_effects _screen_stacks _current_mode].
  fold a1. rewrite Hpopped, last_snoc. done.
Qed.

(** X1.  Popping a screen suspends it, resumes the screen below, and
    removes the popped screen exactly when it is neither installed nor
    left on the stack of any mode. *)
Theorem pop_screen_removes_unreferenced (a : App) (below : list nat)
    (new_top top : nat) :
  _screen_stacks a !! _current_mode a = Some (below ++ [new_top; top]) →
  ∃ a' removed,
    pop_screen a = Val top a' ∧
    effects a' = effects a
                 ++ [Refresh new_top; PostMessage top ScreenSuspend]
                 ++ (if removed : bool then [Remove top] else [])
                 ++ [PostMessage new_top ScreenResume] ∧
    _installed_screens a' = _installed_screens a ∧
    (removed = true ↔
       (Instance top ∉ (_installed_screens a).*2) ∧
       ∀ mode stack, _screen_stacks a' !! mode = Some stack → top ∉ stack).
Proof.
  intros Hstack. rewrite (pop_screen_runs a below new_top top Hstack).
  eexists _, _. split; [reflexivity|]. cbn. split.
  { unfold replaced_effects. by rewrite <- !app_assoc. }
  split; [done|].
  rewrite andb_true_iff, !negb_true_iff, bool_decide_eq_false.
  rewrite <- not_true_iff_false, in_some_stack_spec. cbn.
  split.
  - intros [Hinst Hnone]. split; [done|]. intros mode stack Hmode Hin. eauto.
  - intros [Hinst Hnone]. split; [done|]. intros (mode & stack & Hmode & Hin).
    by apply (Hnone mode stack).
Qed.

Lemma pop_screen_removes_unreferenced_witness :
  let a := set_screen_stacks {[ "_default" := [1; 2]; "help" := [3; 2] ]} (init []) in
  ∃ a', pop_screen a = Val 2 a' ∧
        effects a' = [Refresh 1; PostMessage 2 ScreenSuspend; PostMessage 1 ScreenResume].
Proof.
  intros a.
  destruct (pop_screen_removes_unreferenced a [] 1 2 eq_refl)
    as (a' & removed & Hrun & Hlog & _ & _).
  exists a'. split; [exact Hrun|].
  vm_compute in Hrun. injection Hrun as <-.
  destruct removed; [|exact Hlog].
  vm_compute in Hlog. discriminate Hlog.
Defined.

Lemma two_on_top {A} (l : list A) :
  2 ≤ length l → ∃ below x y, l = below ++ [x; y].
Proof.
  intros Hlen. destruct (reverse l) as [|y [|x r]] eqn:Hrev.
  - apply (f_equal length) in Hrev. rewrite length_reverse in Hrev. cbn in Hrev. lia.
  - apply (f_equal length) in Hrev. rewrite length_reverse in Hrev. cbn in Hrev. lia.
  - exists (reverse r), x, y. apply (f_equal reverse) in Hrev.
    rewrite reverse_involutive in Hrev. rewrite Hrev.
    rewrite !reverse_cons, <- app_assoc. done.
Qed.

(** X2.  [action_back] is not the safe no-op its docstring promises.
    With two or more screens on the stack it pops the top screen.  With
    at most one screen [pop_screen] raises [ScreenStackError], and the
    [except] clause meant to swallow it names a class the module never
    binds: the call ends in [NameError], with the application
    unchanged. *)
Theorem action_back_pops_or_name_error (a : App) (stack : list nat) :
  _screen_stacks a !! _current_mode a = Some stack →
  (length stack ≤ 1 → action_back a = BackNameError "ScreenStackError" a) ∧
  (2 ≤ length stack →
   ∃ top a',
     last stack = Some top ∧
     pop_screen a = Val top a' ∧
     action_back a = BackReturns a' ∧
     _screen_stacks a' !! _current_mode a = Some (removelast stack) ∧
     screen a' = Val (default 0 (last (removelast stack))) a').
Proof.
  intros Hstack. unfold action_back. split.
  - intros Hshort. unfold pop_screen, bind, _screen_stack. rewrite Hstack.
    by rewrite decide_True.
  - intros Hlong.
    destruct (two_on_top stack) as (below & new_top & top & ->); [lia|].
    rewrite (pop_screen_runs a below new_top top Hstack).
    eexists top, _.
    replace (below ++ [new_top; top]) with ((below ++ [new_top]) ++ [top]) in *
      by (by rewrite <- app_assoc).
    rewrite removelast_snoc, !last_snoc. cbn.
    split; [done|]. split; [reflexivity|]. split; [reflexivity|].
    assert (Hpopped : alter (λ l, removelast l) (_current_mode a) (_screen_stacks a)
                        !! _current_mode a = Some (below ++ [new_top])).
    { rewrite lookup_alter_eq, Hstack. cbn. by rewrite removelast_snoc. }
    split; [exact Hpopped|].
    unfold screen. cbn. by rewrite Hpopped, last_snoc.
Qed.

Lemma action_back_pops_or_name_error_witness :
  let one := set_screen_stacks {[ "_default" := [1] ]} (init []) in
  let two := set_screen_stacks {[ "_default" := [1; 2] ]} (init []) in
  action_back one = BackNameError "ScreenStackError" one ∧
  ∃ a', action_back two = BackReturns a' ∧ screen a' = Val 1 a'.
Proof.
  intros one two. split.
  - destruct (action_back_pops_or_name_error one [1] eq_refl) as [Hshort _].
    apply Hshort. cbn. lia.
  - destruct (action_back_pops_or_name_error two [1; 2] eq_refl) as [_ Hlong].
    destruct Hlong as (top & a' & _ & _ & Hrun & _ & Hscreen); [cbn; lia|].
    exists a'. split; [exact Hrun | exact Hscreen].
Defined.

Lemma through_first_opaque_spec (opaque : nat → bool) (screens : list nat) :
  ∃ rest,
    screens = through_first_opaque opaque screens ++ rest ∧
    Forall (λ s, opaque s = false)
      (removelast (through_first_opaque opaque screens)) ∧
    (rest ≠ [] →
     ∃ s, last (through_first_opaque opaque screens) = Some s ∧ opaque s = true).
Proof.
  induction screens as [|s screens IH]; [by exists []|].
  cbn [through_first_opaque]. destruct (opaque s) eqn:Hs.
  - exists screens. split; [done|]. split; [constructor|]. eauto.
  - destruct IH as (rest & Hsplit & Hclear & Hlast).
    exists rest. split; [cbn; by rewrite <- Hsplit|].
    destruct (through_first_opaque opaque screens) as [|t shown] eqn:Hshown.
    + split; [constructor|]. intros Hrest. by destruct (Hlast Hrest) as (? & ? & _).
    + split; [by constructor|]. intros Hrest.
      destruct (Hlast Hrest) as (u & Hu & Hopaque). exists u. by rewrite last_cons, Hu.
Qed.

(** X3.  The background screens are a contiguous run of the stack directly
    below the top screen, in stack order; none of them except the lowest
    is opaque, and the run stops short of the bottom of the stack only at
    an opaque screen. *)
Theorem background_screens_up_to_opaque (opaque : nat → bool) (a : App)
    (stack : list nat) :
  _screen_stacks a !! _current_mode a = Some stack →
  ∃ hidden shown,
    _background_screens opaque a = Val shown a ∧
    removelast stack = hidden ++ shown ∧
    Forall (λ s, opaque s = false) (tail shown) ∧
    (hidden ≠ [] → ∃ s, head shown = Some s ∧ opaque s = true).
Proof.
  intros Hstack. unfold _background_screens, bind, _screen_stack. rewrite Hstack.
  destruct (through_first_opaque_spec opaque (reverse (removelast stack)))
    as (rest & Hsplit & Hclear & Hlast).
  set (shown := through_first_opaque opaque (reverse (removelast stack))) in *.
  exists (reverse rest), (reverse shown). split; [done|]. split.
  { rewrite <- reverse_app, <- Hsplit. by rewrite reverse_involutive. }
  assert (Hends : tail (reverse shown) = reverse (removelast shown)
                  ∧ head (reverse shown) = last shown).
  { clear. induction shown as [|s shown _] using rev_ind; [done|].
    by rewrite reverse_snoc, removelast_snoc, last_snoc. }
  destruct Hends as [-> ->]. split.
  - by apply Forall_reverse.
  - intros Hhidden. apply Hlast. intros ->. by apply Hhidden.
Qed.

Lemma background_screens_up_to_opaque_witness :
  let a := set_screen_stacks {[ "_default" := [1; 2; 3; 4] ]} (init []) in
  _background_screens (λ s, bool_decide (s = 2)) a = Val [2; 3] a.
Proof.
  intros a.
  destruct (background_screens_up_to_opaque (λ s, bool_decide (s = 2)) a [1; 2; 3; 4] eq_refl)
    as (hidden & shown & Hrun & _).
  rewrite Hrun. f_equal. revert Hrun. vm_compute. by intros [= <-].
Defined.

End MoreScreenProperties.

Section CatalogProperties.
Import Core Screens.
Local Open Scope nat_scope.

Lemma dict_get_set {V} (key : string) (v : V) (d : list (string * V)) :
  dict_get key (dict_set key v d) = Some v.
Proof.
  induction d as [|[k w] d IH]; cbn.
  - by rewrite decide_True.
  - destruct (decide (k = key)) as [->|Hne]; cbn.
    + by rewrite decide_True.
    + by rewrite decide_False.
Qed.

Lemma dict_get_set_ne {V} (key key' : string) (v : V) (d : list (string * V)) :
  key ≠ key' → dict_get key' (dict_set key v d) = dict_get key' d.
Proof.
  intros Hne. induction d as [|[k w] d IH]; cbn.
  - by rewrite decide_False.
  - destruct (decide (k = key)) as [->|Hk]; cbn.
    + by rewrite !decide_False.
    + destruct (decide (k = key')); [done|]. exact IH.
Qed.

Lemma dict_del_set_fresh {V} (key : string) (v : V) (d : list (string * V)) :
  dict_get key d = None → dict_del key (dict_set key v d) = d.
Proof.
  induction d as [|[k w] d IH]; cbn.
  - intros _. by rewrite decide_True.
  - destruct (decide (k = key)) as [->|Hne]; [done|]. intros Hnone. cbn.
    rewrite decide_False by done. by rewrite IH.
Qed.

Lemma dict_set_values_fresh {V} (key : string) (v : V) (d : list (string * V)) :
  dict_get key d = None → (dict_set key v d).*2 = d.*2 ++ [v].
Proof.
  induction d as [|[k w] d IH]; cbn; [done|].
  destruct (decide (k = key)) as [->|Hne]; [done|]. intros Hnone. cbn.
  by rewrite IH.
Qed.

Lemma find_installed_set_fresh (s : nat) (name : string) (d : list (string * installed)) :
  dict_get name d = None → Instance s ∉ d.*2 →
  find_installed s (dict_set name (Instance s) d) = Some name.
Proof.
  induction d as [|[k w] d IH]; cbn.
  - intros _ _. by rewrite decide_True.
  - destruct (decide (k = name)) as [->|Hne]; [done|].
    intros Hnone Hfresh. apply not_elem_of_cons in Hfresh as [Hw Hfresh]. cbn.
    rewrite decide_False by done. by apply IH.
Qed.

(** X4.  [install_screen] refuses a name that is taken and a screen that is
    already installed, leaving the catalog as it was.  Otherwise the
    screen is installed under the name, [get_screen] finds it, and
    uninstalling it again, by name or by object, gives back the catalog
    as it was before, provided the screen is on no stack. *)
Theorem install_screen_round_trip (a : App) (s : nat) (name : string) :
  (is_screen_installed (ByName name) a = true →
   ∃ msg, install_screen s name a = Exc (ScreenError msg) a) ∧
  (is_screen_installed (ByObject s) a = true →
   ∃ msg, install_screen s name a = Exc (ScreenError msg) a) ∧
  (is_screen_installed (ByName name) a = false →
   is_screen_installed (ByObject s) a = false →
   ∃ a',
     install_screen s name a = Val tt a' ∧
     is_screen_installed (ByName name) a' = true ∧
     is_screen_installed (ByObject s) a' = true ∧
     get_screen (ByName name) a' = Val s a' ∧
     (in_some_stack s a = false →
      uninstall_screen (ByName name) a' = Val (Some name) a ∧
      uninstall_screen (ByObject s) a' = Val (Some name) a)).
Proof.
  unfold install_screen, bind, gets. cbn [id]. split; [|split].
  - intros ->. eauto.
  - intros Hobj. destruct (is_screen_installed (ByName name) a); [eauto|].
    rewrite Hobj. eauto.
  - intros Hname Hobj. rewrite Hname, Hobj.
    eexists. split; [reflexivity|].
    assert (Hnone : dict_get name (_installed_screens a) = None).
    { cbn in Hname. apply bool_decide_eq_false in Hname.
      destruct (dict_get name (_installed_screens a)); [by destruct Hname|done]. }
    assert (Hfresh : Instance s ∉ (_installed_screens a).*2)
      by (cbn in Hobj; by apply bool_decide_eq_false in Hobj).
    unfold is_screen_installed. app_simpl.
    rewrite dict_get_set. split; [by apply bool_decide_eq_true|]. split.
    { apply bool_decide_eq_true. rewrite dict_set_values_fresh by done.
      rewrite elem_of_app, list_elem_of_singleton. by right. }
    split.
    { unfold get_screen, bind, gets. app_simpl. by rewrite dict_get_set. }
    intros Hstack.
    assert (Hstack' : ∀ d, in_some_stack s (set_installed_screens d a) = false)
      by (intros d; exact Hstack).
    split.
    + unfold uninstall_screen, bind, gets, modify. app_simpl.
      rewrite dict_get_set, Hstack'. app_simpl.
      rewrite dict_del_set_fresh by done. by destruct a.
    + unfold uninstall_screen, bind, gets, modify. rewrite Hstack'. app_simpl.
      rewrite find_installed_set_fresh by done. app_simpl.
      rewrite dict_del_set_fresh by done. by destruct a.
Qed.

Lemma install_screen_round_trip_witness :
  let a := set_screen_stacks {[ "_default" := [1] ]} (init [("help", Instance 5)]) in
  (∃ msg, install_screen 7 "help" a = Exc (ScreenError msg) a) ∧
  (∃ msg, install_screen 5 "about" a = Exc (ScreenError msg) a) ∧
  (∃ a', install_screen 7 "about" a = Val tt a' ∧
         uninstall_screen (ByObject 7) a' = Val (Some "about") a).
Proof.
  intros a. destruct (install_screen_round_trip a 7 "help") as [Hname _].
  destruct (install_screen_round_trip a 5 "about") as (_ & Hobject & _).
  destruct (install_screen_round_trip a 7 "about") as (_ & _ & Hfresh).
  split; [by apply Hname|]. split; [by apply Hobject|].
  destruct Hfresh as (a' & Hrun & _ & _ & _ & Hback); [reflexivity..|].
  exists a'. split; [exact Hrun|]. by apply Hback.
Defined.

(** X5.  [get_screen] raises [KeyError] for a name that is not installed.
    When it returns, asking again gives the same screen and no longer
    changes anything: a screen created from a callable is created once and
    kept as the installed instance. *)
Theorem get_screen_caches (a : App) (name : string) :
  (dict_get name (_installed_screens a) = None →
   get_screen (ByName name) a = Exc (KeyError name) a) ∧
  (∀ s a',
     get_screen (ByName name) a = Val s a' →
     get_screen (ByName name) a' = Val s a' ∧
     dict_get name (_installed_screens a') = Some (Instance s) ∧
     (∀ other, other ≠ name →
        dict_get other (_installed_screens a')
        = dict_get other (_installed_screens a))).
Proof.
  unfold get_screen, bind, gets. split.
  - by intros ->.
  - intros s a'.
    destruct (dict_get name (_installed_screens a)) as [[t|t]|] eqn:Hget;
      [| |done]; cbn; intros [= <- <-].
    + rewrite Hget. done.
    + unfold modify. app_simpl. rewrite dict_get_set.
      split; [done|]. split; [done|].
      intros other Hne. by apply dict_get_set_ne.
Qed.

Lemma get_screen_caches_witness :
  let a := init [("help", Factory 5)] in
  ∃ a', get_screen (ByName "help") a = Val 5 a' ∧
        get_screen (ByName "help") a' = Val 5 a' ∧
        get_screen (ByName "about") a = Exc (KeyError "about") a.
Proof.
  intros a. destruct (get_screen_caches a "help") as [_ Hhit].
  destruct (get_screen_caches a "about") as [Hmiss _].
  destruct (get_screen (ByName "help") a) as [s a'| |] eqn:Hrun;
    [|vm_compute in Hrun; discriminate..].
  assert (s = 5) as -> by (vm_compute in Hrun; congruence).
  exists a'. split; [done|]. split.
  - by apply (Hhit 5 a').
  - by apply Hmiss.
Defined.

End CatalogProperties.

Section PushPopProperties.
Import Core Screens.
Local Open Scope nat_scope.

(** Where a plain [push_screen] leaves the stacks and the callbacks. *)
Lemma push_screen_plain_runs fuel ctx screen_ callback_ a mount a1 :
  push_screen fuel ctx screen_ callback_ false a = Val mount a1 →
  ∃ next stack pair_,
    _screen_stacks a !! _current_mode a = Some stack ∧
    _current_mode a1 = _current_mode a ∧
    _screen_stacks a1
    = alter (λ l, l ++ [next]) (_current_mode a) (_screen_stacks a) ∧
    _result_callbacks a1
    = <[next := default [] (_result_callbacks a !! next) ++ [pair_]]>
        (_result_callbacks a).
Proof.
  intros H. unfold push_screen in H. unfold bind in H.
  repeat match type of H with
         | match ?m with _ => _ end = _ => destruct m eqn:?; try discriminate H
         end.
  destruct value2 as [next_screen await_mount].
  unfold _push_result_callback, emit, modify, update_current_stack in H.
  repeat match type of H with
         | match ?m with _ => _ end = _ => destruct m eqn:?; try discriminate H
         end.
  injection H as <- <-.
  apply screen_Val in Heqo5 as [-> _].
  injection Heqo4 as _ <-.
  apply _screen_stack_Val in Heqo3 as [-> _].
  apply _screen_stack_Val in Heqo0 as [-> Hstack].
  assert (Hview : screens_view app2 = screens_view app).
  { rewrite (keeps_get_screen' _ _ _ _ _ Heqo2).
    destruct value0; [by injection Heqo1 as _ <-|].
    unfold emit, modify in Heqo1.
    repeat match type of Heqo1 with
           | match ?m with _ => _ end = _ =>
               destruct m eqn:?; try discriminate Heqo1
           end.
    injection Heqo1 as _ <-.
    repeat match goal with
           | E : screen _ = Val _ _ |- _ => apply screen_Val in E as [-> _]
           end.
    done. }
  injection Heqo as <- <-.
  injection Hview as Hstacks Hmode Hfutures Hcallbacks.
  cbn in Hstack, Hstacks, Hmode, Hcallbacks.
  eexists next_screen, value0, _. cbn.
  rewrite Hstacks, Hmode, Hcallbacks. done.
Qed.

(** X6.  Pushing a screen on a non-empty stack and popping right away
    gives back the pushed screen and restores the stack: the screen that
    was current before the push is current again, and the callback pair
    attached by the push is gone. *)
Theorem push_then_pop_restores (fuel : nat) (ctx : context) (screen_ : screen_ref)
    (callback_ : option nat) (a a1 : App) (mount : pushed) (below : list nat)
    (current : nat) :
  _screen_stacks a !! _current_mode a = Some (below ++ [current]) →
  push_screen fuel ctx screen_ callback_ false a = Val mount a1 →
  ∃ pushed_screen a2,
    screen a1 = Val pushed_screen a1 ∧
    pop_screen a1 = Val pushed_screen a2 ∧
    _screen_stacks a2 = _screen_stacks a ∧
    _current_mode a2 = _current_mode a ∧
    screen a2 = Val current a2 ∧
    _result_callbacks a2 !! pushed_screen
    = Some (default [] (_result_callbacks a !! pushed_screen)).
Proof.
  intros Hstack Hpush.
  destruct (push_screen_plain_runs _ _ _ _ _ _ _ Hpush)
    as (next & stack & pair_ & Hstack' & Hmode1 & Hstacks1 & Hcallbacks1).
  rewrite Hstack in Hstack'. injection Hstack' as <-.
  assert (Hpushed : _screen_stacks a1 !! _current_mode a1
                    = Some (below ++ [current; next])).
  { rewrite Hstacks1, Hmode1, lookup_alter_eq, Hstack. cbn.
    by rewrite <- app_assoc. }
  exists next. eexists. split.
  { unfold screen. rewrite Hpushed.
    replace (below ++ [current; next]) with ((below ++ [current]) ++ [next])
      by (by rewrite <- app_assoc).
    by rewrite last_snoc. }
  split; [exact (pop_screen_runs a1 below current next Hpushed)|].
  cbn. rewrite Hmode1, Hstacks1, Hcallbacks1.
  assert (Hback : alter (λ l, removelast l) (_current_mode a)
                    (alter (λ l, l ++ [next]) (_current_mode a) (_screen_stacks a))
                  = _screen_stacks a).
  { apply map_eq. intros mode.
    destruct (decide (mode = _current_mode a)) as [->|Hne].
    - rewrite !lookup_alter_eq, Hstack. cbn. by rewrite removelast_snoc.
    - by rewrite !lookup_alter_ne. }
  rewrite Hback. split; [done|]. split; [done|]. split.
  - unfold screen. cbn. by rewrite Hmode1, Hstack, last_snoc.
  - rewrite lookup_alter_eq, lookup_insert_eq. cbn. by rewrite removelast_snoc.
Qed.

Lemma push_then_pop_restores_witness :
  let a := set_screen_stacks {[ "_default" := [1] ]} (init [("help", Factory 5)]) in
  ∃ mount a1 a2,
    push_screen 1 (mkContext None false) (ByName "help") None false a = Val mount a1 ∧
    pop_screen a1 = Val 5 a2 ∧
    _screen_stacks a2 = _screen_stacks a.
Proof.
  intros a.
  destruct (push_screen 1 (mkContext None false) (ByName "help") None false a)
    as [mount a1| |] eqn:Hpush; [|vm_compute in Hpush; discriminate..].
  destruct (push_then_pop_restores 1 (mkContext None false) (ByName "help") None
              a a1 mount [] 1 eq_refl Hpush)
    as (pushed_screen & a2 & Htop & Hpop & Hstacks & _).
  exists mount, a1, a2. split; [reflexivity|]. split; [|exact Hstacks].
  assert (pushed_screen = 5) as <-; [|exact Hpop].
  apply screen_Val in Htop as [_ (stack & Hstack & Hlast)].
  revert Hpush Hstack Hlast. clear. intros Hpush.
  vm_compute in Hpush. injection Hpush as _ <-.
  vm_compute. intros [= <-] [= <-]. done.
Defined.

End PushPopProperties.

Section SwitchProperties.
Import Core Screens.
Local Open Scope nat_scope.

Lemma _get_screen_object fuel s a next mount a0 :
  _get_screen fuel (ByObject s) a = Val (next, mount) a0 → next = s.
Proof.
  unfold _get_screen, get_screen. unfold bind at 1 2, ret, gets.
  destruct (decide (s ∉ _running a)); intros H.
  - apply bind_Val in H as (ws & a1 & _ & H).
    apply bind_Val in H as (u & a2 & _ & H). by injection H as <- _ _.
  - apply bind_Val in H as (u & a2 & _ & H). by injection H as <- _ _.
Qed.

(** X7.  [switch_screen] keeps the height of the stack: only the top entry
    changes, to the screen the argument resolves to, which becomes the
    current screen; the other modes are left alone.  When that screen is
    already current the stacks do not change at all. *)
Theorem switch_screen_replaces_top (fuel : nat) (screen_ : screen_ref)
    (a a' : App) (result : pushed) (below : list nat) (top : nat) :
  _screen_stacks a !! _current_mode a = Some (below ++ [top]) →
  switch_screen fuel screen_ a = Val result a' →
  ∃ next mount a0,
    _get_screen fuel screen_ a = Val (next, mount) a0 ∧
    _current_mode a' = _current_mode a ∧
    _screen_stacks a' !! _current_mode a = Some (below ++ [next]) ∧
    (∀ mode, mode ≠ _current_mode a →
             _screen_stacks a' !! mode = _screen_stacks a !! mode) ∧
    screen a' = Val next a' ∧
    (next = top → _screen_stacks a' = _screen_stacks a).
Proof.
  intros Hstack H. unfold switch_screen in H.
  apply bind_Val in H as ([next mount] & a0 & Hget & H).
  exists next, mount, a0. split; [exact Hget|].
  pose proof (keeps_get_screen' _ _ _ _ _ Hget) as Hview.
  injection Hview as Hstacks0 Hmode0 _ _.
  apply bind_Val in H as (current & a0' & Hcurrent & H).
  apply screen_Val in Hcurrent as [-> (stack & Hstack0 & Hlast)].
  rewrite Hmode0, Hstacks0, Hstack in Hstack0. injection Hstack0 as <-.
  rewrite last_snoc in Hlast. injection Hlast as <-.
  assert (Hscreen0 : screen a0 = Val top a0).
  { unfold screen. by rewrite Hmode0, Hstacks0, Hstack, last_snoc. }
  destruct (_ || _) eqn:Hsame.
  - rewrite (bind_run _ _ _ _ _ Hscreen0) in H. injection H as _ <-.
    assert (next = top) as ->.
    { apply orb_true_iff in Hsame as [Hobject|Hnext].
      - destruct screen_ as [|s]; [done|].
        apply bool_decide_eq_true in Hobject as ->.
        by apply _get_screen_object in Hget.
      - by apply bool_decide_eq_true in Hnext. }
    rewrite Hmode0, Hstacks0. done.
  - apply orb_false_iff in Hsame as [_ Hnext%bool_decide_eq_false].
    unfold bind at 1, _screen_stack at 1 in H.
    rewrite Hmode0, Hstacks0, Hstack, last_snoc in H.
    unfold update_current_stack, modify, bind at 1 in H.
    set (a1 := set_screen_stacks _ a0) in H.
    assert (Hpopped : _screen_stacks a1 !! _current_mode a1 = Some below).
    { subst a1. cbn. rewrite Hmode0, Hstacks0, lookup_alter_eq, Hstack. cbn.
      by rewrite removelast_snoc. }
    unfold bind at 1 in H. rewrite (_replace_screen_effects a1 top _ Hpopped) in H.
    unfold _pop_result_callback, emit, modify, _push_result_callback in H.
    unfold bind at 1 2 in H. cbn [set_effects set_result_callbacks] in H.
    unfold bind at 1, _screen_stack at 1 in H.
    cbn [_screen_stacks _current_mode set_effects set_result_callbacks] in H.
    fold a1 in H. rewrite Hpopped in H.
    unfold bind at 1 in H.
    match type of H with
    | _ (set_screen_stacks ?f ?X) = _ => set (a3 := set_screen_stacks f X) in H
    end.
    assert (Hst3 : _screen_stacks a3 !! _current_mode a3 = Some (below ++ [next])).
    { subst a3 a1. app_simpl.
      rewrite Hmode0, Hstacks0, !lookup_alter_eq, Hstack. cbn.
      by rewrite removelast_snoc. }
    assert (Hscreen : ∀ s, _screen_stacks s = _screen_stacks a3 →
                           _current_mode s = _current_mode a3 →
                           screen s = Val next s).
    { intros s Hs Hm. unfold screen. by rewrite Hs, Hm, Hst3, last_snoc. }
    rewrite (bind_run _ _ _ _ _ (Hscreen a3 eq_refl eq_refl)) in H.
    unfold bind at 1 in H. cbv beta iota in H.
    apply bind_Val in H as (current & s & Hrun & H).
    rewrite Hscreen in Hrun by reflexivity. injection Hrun as <- <-.
    apply bind_Val in H as (requester_ & s & Hrun & H).
    rewrite Hscreen in Hrun by reflexivity. injection Hrun as <- <-.
    unfold modify, bind at 1 in H. cbv beta iota in H.
    apply bind_Val in H as (current & s & Hrun & H).
    rewrite Hscreen in Hrun by reflexivity. injection Hrun as <- <-.
    injection H as _ <-.
    assert (Hmode3 : _current_mode a3 = _current_mode a).
    { by rewrite <- Hmode0. }
    split; [exact Hmode3|]. split.
    { rewrite <- Hmode3. exact Hst3. }
    split.
    { intros mode Hne. change (_screen_stacks a3 !! mode = _screen_stacks a !! mode).
      subst a3 a1. app_simpl. rewrite Hmode0 in *.
      by rewrite !lookup_alter_ne, Hstacks0. }
    split; [by apply Hscreen|]. by intros ->.
Qed.

Lemma switch_screen_replaces_top_witness :
  let a := set_screen_stacks {[ "_default" := [1; 2] ]} (init [("help", Factory 5)]) in
  ∃ result a',
    switch_screen 1 (ByName "help") a = Val result a' ∧
    _screen_stacks a' !! _current_mode a = Some [1; 5].
Proof.
  intros a.
  destruct (switch_screen 1 (ByName "help") a) as [result a'| |] eqn:Hrun;
    [|vm_compute in Hrun; discriminate..].
  destruct (switch_screen_replaces_top 1 (ByName "help") a a' result [1] 2
              eq_refl Hrun)
    as (next & mount & a0 & Hget & _ & Hstacks & _).
  exists result, a'. split; [reflexivity|].
  assert (next = 5) as <-; [|exact Hstacks].
  clear Hstacks Hrun. vm_compute in Hget. injection Hget as <- _ _. reflexivity.
Defined.

End SwitchProperties.

Section UnregisterProperties.
Import Core Screens.
Local Open Scope nat_scope.

(** X8.  Unregistering a child right after it was registered undoes the
    registration as far as the registry goes, but never stops the pump
    that registration started.  Below a widget the child also loses its
    parent pointer and every occurrence of it leaves the child list of
    the parent: the child lists are as before when the child was not
    listed yet, whereas a child that was already listed (as the children
    that [_register] passes on are) is gone from the list.  Directly
    below the application the child stays in the child list and keeps
    its parent pointer. *)
Theorem register_child_then_unregister (parent child : nat)
    (before after : option Z) (a : App) :
  ¬ (is_Some before ∧ is_Some after) →
  child ∉ _registry a →
  ∃ a1 a2,
    _register_child parent child before after a = Val tt a1 ∧
    _unregister child a1 = Val tt a2 ∧
    _registry a2 = _registry a ∧
    child ∈ _running a2 ∧
    (is_Widget parent = true →
       nodes_of parent a2 = filter (λ n, n ≠ child) (nodes_of parent a) ∧
       (∀ node, node ≠ parent → nodes_of node a2 = nodes_of node a) ∧
       (child ∉ nodes_of parent a → ∀ node, nodes_of node a2 = nodes_of node a) ∧
       (child ∈ nodes_of parent a → child ∉ nodes_of parent a2) ∧
       _parent a2 !! child = None) ∧
    (is_Widget parent = false →
       child ∈ nodes_of parent a2 ∧ _parent a2 !! child = Some parent).
Proof.
  intros Hone Hfresh.
  destruct (_register_child_fresh parent child before after a Hone Hfresh)
    as (a1 & front & back & Hrun & Hsplit & Hnodes & _ & _ & _ & Hregistry
        & Hparent & Hrunning & _).
  exists a1. unfold _unregister, bind at 1, emit, modify.
  unfold bind at 1, gets. app_simpl. rewrite Hparent, lookup_insert_eq.
  destruct (is_Widget parent) eqn:Hwidget.
  - unfold _remove, update_nodes, _detach, modify, bind. cbv beta iota.
    eexists. split; [exact Hrun|]. split; [reflexivity|]. app_simpl.
    split; [rewrite Hregistry; set_solver|].
    split; [rewrite Hrunning; set_solver|].
    split; [|done]. intros _.
    match goal with
    | |- nodes_of parent ?a2 = _ ∧ _ =>
        assert (Hlist : ∀ node,
          nodes_of node a2
          = if decide (node = parent)
            then filter (λ n, n ≠ child) (nodes_of parent a)
            else nodes_of node a)
    end.
    { intros node. unfold nodes_of. app_simpl. rewrite Hnodes.
      destruct (decide (node = parent)) as [->|Hne].
      - rewrite !lookup_insert_eq. cbn. unfold NodeList_remove.
        fold (nodes_of parent a). rewrite Hsplit, !filter_app, filter_cons_False;
          [done | by intros H; apply H].
      - by rewrite !lookup_insert_ne. }
    split; [by rewrite Hlist, decide_True|].
    split; [intros node Hne; by rewrite Hlist, decide_False|].
    split.
    { intros Hnew node. rewrite Hlist. case_decide as Hnode; [|done].
      subst node. apply filter_all. intros x Hx ->. by apply Hnew. }
    split; [|by rewrite lookup_delete_eq].
    intros _. rewrite Hlist, decide_True by done.
    rewrite list_elem_of_filter. by intros [? _].
  - unfold bind, ret, modify. cbv beta iota.
    eexists. split; [exact Hrun|]. split; [reflexivity|]. app_simpl.
    split; [rewrite Hregistry; set_solver|].
    split; [rewrite Hrunning; set_solver|].
    split; [done|]. intros _. split; [|by rewrite Hparent, lookup_insert_eq].
    unfold nodes_of. app_simpl. rewrite Hnodes, lookup_insert_eq. cbn.
    apply elem_of_app. right. by left.
Qed.

Lemma register_child_then_unregister_witness :
  let listed := set_nodes {[ 7 := [8; 9] ]} (init []) in
  (∃ a1 a2,
     _register_child 1 7 None (Some 0%Z) family = Val tt a1 ∧
     _unregister 7 a1 = Val tt a2 ∧
     nodes_of 1 a2 = [2; 4] ∧
     7 ∈ _running a2) ∧
  (∃ a1 a2,
     _register_child 7 8 None None listed = Val tt a1 ∧
     _unregister 8 a1 = Val tt a2 ∧
     nodes_of 7 a2 = [9]).
Proof.
  intros listed. split.
  - destruct (register_child_then_unregister 1 7 None (Some 0%Z) family)
      as (a1 & a2 & Hrun1 & Hrun2 & _ & Hrunning & Hwidget & _).
    + by intros [[? [=]] _].
    + cbn. set_solver.
    + exists a1, a2. split; [exact Hrun1|]. split; [exact Hrun2|].
      split; [|exact Hrunning]. by destruct (Hwidget eq_refl) as [-> _].
  - destruct (register_child_then_unregister 7 8 None None listed)
      as (a1 & a2 & Hrun1 & Hrun2 & _ & _ & Hwidget & _).
    + by intros [[? [=]] _].
    + cbn. set_solver.
    + exists a1, a2. split; [exact Hrun1|]. split; [exact Hrun2|].
      by destruct (Hwidget eq_refl) as [-> _].
Defined.

End UnregisterProperties.

Section RegisterPostcondition.
Import Core Screens Registry.
Local Open Scope nat_scope.

Lemma registered_since_refl (a : App) : registered_since a a.
Proof. unfold registered_since. set_solver. Qed.

Lemma registered_since_trans (a a1 a2 : App) :
  registered_since a a1 → registered_since a1 a2 → registered_since a a2.
Proof.
  intros (Hreg1 & Hrun1 & Hdom1 & Hnew1) (Hreg2 & Hrun2 & Hdom2 & Hnew2).
  split; [set_solver|]. split; [set_solver|]. split; [set_solver|].
  intros w Hw Hfresh. destruct (decide (w ∈ _registry a1)) as [Hmid|Hmid].
  - destruct (Hnew1 w Hmid Hfresh) as [Hrunning Hparent]. split; [set_solver|].
    apply elem_of_dom. apply Hdom2. by apply elem_of_dom.
  - by apply Hnew2.
Qed.

Lemma grows_ret {A} (x : A) : grows (ret x).
Proof. intros a r a' [= _ <-]. apply registered_since_refl. Qed.

Lemma grows_gets {A} (f : App → A) : grows (gets f).
Proof. intros a r a' [= _ <-]. apply registered_since_refl. Qed.

Lemma grows_emit (e : effect) : grows (emit e).
Proof. intros a r a' [= _ <-]. unfold registered_since. cbn. set_solver. Qed.

Lemma grows_bind {A B} (m : M A) (k : A → M B) :
  grows m → (∀ x, grows (k x)) → grows (bind m k).
Proof.
  intros Hm Hk a r a' Hrun. apply bind_Val in Hrun as (x & a1 & Hrun1 & Hrun2).
  eapply registered_since_trans; [by eapply Hm | by eapply Hk].
Qed.

Lemma grows_for_each {A} (xs : list A) (body : A → M unit) :
  (∀ x, grows (body x)) → grows (for_each xs body).
Proof.
  intros Hbody. induction xs as [|x xs IH]; cbn.
  - apply grows_ret.
  - apply grows_bind; auto.
Qed.

Lemma _register_child_Val (parent child : nat) (before after : option Z)
    (a a' : App) (r : unit) :
  _register_child parent child before after a = Val r a' →
  child ∈ _registry a' ∧ registered_since a a'.
Proof.
  intros H. unfold _register_child in H.
  destruct before as [before_|], after as [after_|]; [done|..];
    unfold bind at 1, gets in H;
    (destruct (decide (child ∈ _registry a)) as [Hin|Hfresh];
     [injection H as _ <-; split; [done | apply registered_since_refl]|]);
    try destruct (decide (after_ ≠ (-1)%Z));
    cbv [_insert _append update_nodes _attach _start_messages emit modify
         bind gets ret] in H;
    injection H as _ <-; unfold registered_since; app_simpl;
    (split; [set_solver|]); (split; [set_solver|]); (split; [set_solver|]);
    (split; [rewrite dom_insert; set_solver|]);
    intros w Hw Hnew; assert (w = child) as -> by set_solver;
    (split; [set_solver | by rewrite lookup_insert_eq]).
Qed.

Lemma grows_register_child parent child before after :
  grows (_register_child parent child before after).
Proof. intros a r a' H. by apply _register_child_Val in H as [_ ?]. Qed.

Lemma grows_register (fuel : nat) : ∀ parent widgets before after,
  grows (_register fuel parent widgets before after).
Proof.
  induction fuel as [|fuel IH]; intros parent widgets before after;
    (destruct widgets as [|w ws]; [apply grows_ret|]);
    rewrite _register_unfold by done;
    (apply grows_bind;
     [apply grows_for_each; intros widget
     |intros ?; apply grows_bind; [apply grows_gets|];
      intros ?; case_decide; apply grows_ret]);
    unfold register_one;
    (destruct (negb (is_Widget widget)); [by intros ???|]);
    (apply grows_bind; [apply grows_gets|]); intros registry;
    (case_decide; [apply grows_ret|]);
    (apply grows_bind; [apply grows_register_child|]); intros _;
    (apply grows_bind; [apply grows_gets|]); intros children;
    (apply grows_bind; [|intros; apply grows_emit]);
    (destruct children; [apply grows_ret|]).
  - by intros ???.
  - apply grows_bind; [apply IH | intros; apply grows_ret].
Qed.

Lemma register_one_Val (fuel : nat) (parent : nat) (before after : option Z)
    (widget : nat) (a a' : App) (r : unit) :
  register_one fuel parent before after widget a = Val r a' →
  is_Widget widget = true ∧ widget ∈ _registry a' ∧ registered_since a a'.
Proof.
  intros H. unfold register_one in H.
  destruct (is_Widget widget); [|done]. split; [done|]. cbn [negb] in H.
  unfold bind at 1, gets in H.
  destruct (decide (widget ∈ _registry a)) as [Hin|Hfresh].
  { injection H as _ <-. split; [done | apply registered_since_refl]. }
  apply bind_Val in H as (u & a1 & Hchild & H).
  apply _register_child_Val in Hchild as [Hin Hgrows1].
  assert (Hrest : registered_since a1 a').
  { refine ((_ : grows (
      children <- gets (nodes_of widget) ;;
      match children with
      | [] => ret tt
      | _ => match fuel with
             | O => diverge
             | S fuel' => _register fuel' widget children None None ;; ret tt
             end
      end ;; emit (StylesheetApply widget))) _ _ _ H).
    apply grows_bind; [apply grows_gets|]. intros children.
    apply grows_bind; [|intros; apply grows_emit].
    destruct children; [apply grows_ret|].
    destruct fuel; [by intros ???|].
    apply grows_bind; [apply grows_register | intros; apply grows_ret]. }
  split; [by apply Hrest | by eapply registered_since_trans].
Qed.

Lemma register_loop (fuel : nat) (parent : nat) (before after : option Z)
    (widgets : list nat) : ∀ a a' r,
  for_each widgets (register_one fuel parent before after) a = Val r a' →
  registered_since a a' ∧
  ∀ w, w ∈ widgets → is_Widget w = true ∧ w ∈ _registry a'.
Proof.
  induction widgets as [|x widgets IH]; intros a a' r H.
  - injection H as _ <-. split; [apply registered_since_refl|].
    by intros w ?%elem_of_nil.
  - cbn in H. apply bind_Val in H as (u & a1 & Hone & H).
    apply register_one_Val in Hone as (Hwidget & Hin & Hgrows1).
    destruct (IH _ _ _ H) as [Hgrows Hall].
    split; [by eapply registered_since_trans|].
    intros w [->|Hw]%elem_of_cons; [|by apply Hall].
    split; [done|]. by apply Hgrows.
Qed.

(** X9.  When [_register] returns, every widget it was given is a
    [Widget] and is in the registry; nothing has left the registry and no
    pump has stopped; and every node that is new in the registry, be it
    one of the widgets or one of their descendants, has a running pump
    and a parent.  The widgets are handed back exactly when the
    application is running. *)
Theorem register_registers_all (fuel : nat) (parent : nat) (widgets : list nat)
    (before after : option Z) (a a' : App) (result : list nat) :
  _register fuel parent widgets before after a = Val result a' →
  (∀ w, w ∈ widgets → is_Widget w = true ∧ w ∈ _registry a') ∧
  _registry a ⊆ _registry a' ∧
  _running a ⊆ _running a' ∧
  (∀ w, w ∈ _registry a' → w ∉ _registry a →
        w ∈ _running a' ∧ is_Some (_parent a' !! w)) ∧
  result = (if decide (APP ∈ _running a') then widgets else []).
Proof.
  intros H. destruct widgets as [|w ws].
  { assert (a' = a ∧ result = []) as [-> ->].
    { destruct fuel; by injection H as <- <-. }
    split; [by intros w ?%elem_of_nil|]. split; [done|]. split; [done|].
    split; [done|]. by case_decide. }
  rewrite _register_unfold in H by done.
  apply bind_Val in H as (u & a1 & Hloop & H).
  apply register_loop in Hloop as [(Hreg & Hrun & _ & Hnew) Hall].
  unfold bind, gets in H.
  assert (a' = a1 ∧ result = if decide (APP ∈ _running a1) then w :: ws else [])
    as [-> ->] by (case_decide; by injection H as <- <-).
  split; [|done].
  intros x Hx. apply Hall. destruct before, after; by rewrite ?elem_of_reverse.
Qed.

Lemma register_registers_all_witness :
  let a := set_running {[ APP ]} (set_nodes {[ 7 := [8; 9] ]} (init [])) in
  ∃ a', _register 1 1 [7] None None a = Val [7] a' ∧
        8 ∈ _running a' ∧ 9 ∈ _running a'.
Proof.
  intros a.
  destruct (_register 1 1 [7] None None a) as [result a'| |] eqn:Hrun;
    [|vm_compute in Hrun; discriminate..].
  destruct (register_registers_all 1 1 [7] None None a a' result Hrun)
    as (_ & _ & Hrunning & Hnew & Hresult).
  exists a'.
  assert (Hstate : _registry a' = {[ 7; 8; 9 ]} ∧ APP ∈ _running a).
  { split; [|cbn; set_solver]. clear -Hrun. vm_compute in Hrun.
    injection Hrun as _ <-. reflexivity. }
  destruct Hstate as [Hregistry Happ].
  split.
  - rewrite Hresult. rewrite decide_True; [reflexivity|]. apply Hrunning, Happ.
  - split; apply Hnew; rewrite ?Hregistry; cbn; set_solver.
Defined.

End RegisterPostcondition.

Section PruneState.
Import Core Screens.
Local Open Scope nat_scope.

Lemma _unregister_state (w : nat) (a : App) :
  ∃ a', _unregister w a = Val tt a' ∧
        _registry a' = _registry a ∖ {[w]} ∧
        _running a' = _running a.
Proof.
  unfold _unregister, bind, gets, emit, modify.
  destruct (_parent (set_effects (effects a ++ [Blur w]) a) !! w) as [p|];
    [destruct (is_Widget p)|]; cbn; eexists; split; reflexivity || done.
Qed.

Lemma unregister_all_state (children : list nat) : ∀ a,
  ∃ a', for_each children _unregister a = Val tt a' ∧
        _registry a' = _registry a ∖ list_to_set children ∧
        _running a' = _running a.
Proof.
  induction children as [|c children IH]; intros a.
  - exists a. split; [done|]. split; [|done]. cbn. set_solver.
  - destruct (_unregister_state c a) as (a1 & Hrun1 & Hreg1 & Hrunning1).
    destruct (IH a1) as (a' & Hrun & Hreg & Hrunning).
    exists a'. cbn [for_each]. rewrite (bind_run _ _ _ _ _ Hrun1).
    split; [exact Hrun|]. split; [|congruence].
    rewrite Hreg, Hreg1. cbn. set_solver.
Qed.

(** One round of the pruning loop: afterwards no member of the group is
    running; members are unregistered only when one of them was. *)
Lemma close_children_state (children : list nat) (a : App) :
  ∃ a', close_children children a = Val tt a' ∧
        _running a' ⊆ _running a ∧
        (∀ w, w ∈ children → w ∉ _running a') ∧
        _registry a' ⊆ _registry a ∧
        (∀ w, w ∈ _registry a → w ∉ _registry a' →
              w ∈ children ∧ ∃ x, x ∈ children ∧ x ∈ _running a).
Proof.
  unfold close_children, bind at 1, gets.
  destruct (filter (λ child, child ∈ _running a) children)
    as [|c close_messages] eqn:Hfilter.
  - exists a. split; [done|]. split; [done|]. split; [|split; [done|done]].
    intros w Hw Hrunning.
    assert (w ∈ filter (λ child, child ∈ _running a) children)
      by (by apply list_elem_of_filter).
    rewrite Hfilter in *. by eapply elem_of_nil.
  - set (cm := c :: close_messages) in *.
    assert (Hcm : ∀ x, x ∈ cm ↔ x ∈ _running a ∧ x ∈ children)
      by (intros x; by rewrite <- Hfilter, list_elem_of_filter).
    unfold _close_messages, bind at 1, emit, modify, bind at 1.
    match goal with
    | |- ∃ a', for_each _ _ ?a1 = _ ∧ _ =>
        destruct (unregister_all_state children a1)
          as (a' & Hrun & Hreg & Hrunning)
    end.
    exists a'. split; [exact Hrun|]. rewrite Hreg, Hrunning. app_simpl.
    split; [set_solver|]. split.
    { intros w Hw. rewrite elem_of_difference, elem_of_list_to_set, Hcm. tauto. }
    split; [set_solver|].
    intros w Hw Hgone.
    assert (Hin : w ∈ children).
    { destruct (decide (w ∈ children)); [done|]. exfalso. apply Hgone.
      rewrite elem_of_difference, elem_of_list_to_set. done. }
    split; [done|]. exists c.
    assert (Hc : c ∈ cm) by (by left). apply Hcm in Hc. tauto.
Qed.

Lemma close_groups_state (groups : list (list nat)) : ∀ a,
  ∃ a', for_each groups close_children a = Val tt a' ∧
        _running a' ⊆ _running a ∧
        (∀ w, w ∈ concat groups → w ∉ _running a') ∧
        _registry a' ⊆ _registry a ∧
        (∀ w, w ∈ _registry a → w ∉ _registry a' →
              ∃ g, g ∈ groups ∧ w ∈ g ∧ ∃ x, x ∈ g ∧ x ∈ _running a).
Proof.
  induction groups as [|g groups IH]; intros a.
  - exists a. split; [done|]. split; [done|].
    split; [by intros w ?%elem_of_nil|]. split; [done|done].
  - destruct (close_children_state g a)
      as (a1 & Hrun1 & Hrunning1 & Hstopped1 & Hreg1 & Hgone1).
    destruct (IH a1) as (a' & Hrun & Hrunning & Hstopped & Hreg & Hgone).
    exists a'. cbn [for_each]. rewrite (bind_run _ _ _ _ _ Hrun1).
    split; [exact Hrun|]. split; [set_solver|]. split.
    { cbn [concat]. intros w [Hw|Hw]%elem_of_app; [|by apply Hstopped].
      intros Hstill. by apply (Hstopped1 w Hw), Hrunning. }
    split; [set_solver|].
    intros w Hw Hnot. destruct (decide (w ∈ _registry a1)) as [Hmid|Hmid].
    + destruct (Hgone w Hmid Hnot) as (g' & Hg' & Hwg' & x & Hx & Hxrun).
      exists g'. split; [by right|]. split; [done|]. exists x.
      split; [done|]. by apply Hrunning1.
    + destruct (Hgone1 w Hw Hmid) as (Hwg & x & Hx & Hxrun).
      exists g. split; [by left|]. eauto.
Qed.

(** X10.  After [_prune_node] has returned for a registered root, neither
    the root nor any widget of a sibling group met by the walk has a
    running pump, and the root is out of the registry.  Pruning never
    registers a node or starts a pump.  A widget other than the root
    leaves the registry only as a member of a group in which some pump
    was running, so a group without a running pump stays registered.
    Pruning the same root again changes nothing. *)
Theorem prune_node_stops_subtree (fuel root : nat) (a a' : App) (r : unit) :
  root ∈ _registry a →
  _prune_node fuel root a = Val r a' →
  ∃ groups,
    walk_loop fuel [root] a = Some groups ∧
    (∀ w, w ∈ root :: concat groups → w ∉ _running a') ∧
    (root ∉ _registry a') ∧
    _registry a' ⊆ _registry a ∧
    _running a' ⊆ _running a ∧
    (∀ w, w ∈ _registry a → w ∉ _registry a' →
          w = root ∨ ∃ g, g ∈ groups ∧ w ∈ g ∧ ∃ x, x ∈ g ∧ x ∈ _running a) ∧
    _prune_node fuel root a' = Val tt a'.
Proof.
  intros Hroot H. unfold _prune_node in H. unfold bind at 1, gets in H.
  rewrite decide_False in H by tauto.
  unfold bind at 1, _walk_children in H.
  destruct (walk_loop fuel [root] a) as [groups|] eqn:Hwalk; [|done].
  exists groups. split; [done|].
  destruct (close_groups_state (reverse groups) a)
    as (a1 & Hrun1 & Hrunning1 & Hstopped1 & Hreg1 & Hgone1).
  rewrite (bind_run _ _ _ _ _ Hrun1) in H.
  unfold bind at 1, _close_messages, bind at 1, emit, modify in H.
  match type of H with
  | _unregister root ?a2 = _ =>
      destruct (_unregister_state root a2) as (a3 & Hrun3 & Hreg3 & Hrunning3);
      rewrite Hrun3 in H
  end.
  injection H as _ <-. app_simpl.
  assert (Hgroups : ∀ w, w ∈ concat (reverse groups) ↔ w ∈ concat groups).
  { intros w. rewrite !elem_of_concat. by setoid_rewrite elem_of_reverse. }
  rewrite Hreg3, Hrunning3. cbn [list_to_set].
  split.
  { intros w [->|Hw]%elem_of_cons; [set_solver|].
    apply Hgroups, Hstopped1 in Hw. set_solver. }
  split; [set_solver|]. split; [set_solver|]. split; [set_solver|]. split.
  { intros w Hw Hnot. destruct (decide (w = root)) as [|Hne]; [by left|right].
    assert (Hmid : w ∉ _registry a1) by set_solver.
    destruct (Hgone1 w Hw Hmid) as (g & Hg & Hrest).
    rewrite elem_of_reverse in Hg. eauto. }
  unfold _prune_node, bind at 1, gets.
  rewrite decide_True; [done|]. rewrite Hreg3. set_solver.
Qed.

Lemma prune_node_stops_subtree_witness :
  ∃ a', _prune_node 6 1 lopsided = Val tt a' ∧
        (5 ∉ _running a') ∧
        _prune_node 6 1 a' = Val tt a'.
Proof.
  destruct (_prune_node 6 1 lopsided) as [[] a'| |] eqn:Hrun;
    [|vm_compute in Hrun; discriminate..].
  destruct (prune_node_stops_subtree 6 1 lopsided a' tt) as
    (groups & Hwalk & Hstopped & _ & _ & _ & _ & Hagain).
  - cbn. set_solver.
  - exact Hrun.
  - exists a'. split; [reflexivity|]. split; [|exact Hagain].
    apply Hstopped. vm_compute in Hwalk. injection Hwalk as <-.
    cbn. set_solver.
Defined.

End PruneState.

Section MouseProperties.
Import Mouse.
Local Open Scope nat_scope.

(** X11.  Whatever [post_message] does, [_set_mouse_over] leaves
    [mouse_over] at the widget it was given: the assignment sits in a
    [finally] clause.  It touches nothing else but the message log, to
    which it only appends, and only [Leave] for the widget the mouse was
    over and [Enter] for the new widget, and none at all when the mouse
    stays where it was. *)
Theorem set_mouse_over_always_sets (fails : nat → event → bool)
    (widget : option nat) (s : AppEventHandler) :
  let s' := state_of (_set_mouse_over fails widget s) in
  mouse_over s' = widget ∧
  mouse_captured s' = mouse_captured s ∧
  ∃ sent,
    posted s' = posted s ++ sent ∧
    (mouse_over s = widget → sent = []) ∧
    ∀ target e, (target, e) ∈ sent →
      (e = Leave ∧ mouse_over s = Some target) ∨
      (e = Enter ∧ widget = Some target).
Proof.
  unfold _set_mouse_over, post_message.
  destruct widget as [w|], (mouse_over s) as [over|] eqn:Hover;
    repeat case_decide; repeat (destruct (fails _ _)); cbn; rewrite ?Hover.
  all: try (assert (over = w) as -> by (destruct (decide (over = w)); congruence)).
  all: (split; [done|]); (split; [done|]).
  all: first
    [ exists []; rewrite app_nil_r; split; [done|]; split; [done|];
      by intros ?? ?%elem_of_nil
    | eexists; rewrite <- ?app_assoc; split; [reflexivity|];
      split; [by intros ?|]; intros target e Hin;
      repeat (apply elem_of_cons in Hin as [[= -> ->]|Hin]; [by auto|]);
      by apply elem_of_nil in Hin ].
Qed.

Lemma received_snoc (target x : nat) (k : kind) (e : event)
    (log : list (nat * event)) :
  received target k (log ++ [(x, e)])
  = received target k log + (if decide (x = target ∧ kind_of e = k) then 1 else 0).
Proof.
  unfold received. rewrite filter_app, length_app. f_equal.
  rewrite filter_cons. cbn. by case_decide.
Qed.

Lemma step_paired (s : AppEventHandler) (c : call) (target : nat) :
  received target IsEnter (posted s)
  = received target IsLeave (posted s)
    + (if decide (mouse_over s = Some target) then 1 else 0) →
  received target IsCapture (posted s)
  = received target IsRelease (posted s)
    + (if decide (mouse_captured s = Some target) then 1 else 0) →
  received target IsEnter (posted (step s c))
  = received target IsLeave (posted (step s c))
    + (if decide (mouse_over (step s c) = Some target) then 1 else 0) ∧
  received target IsCapture (posted (step s c))
  = received target IsRelease (posted (step s c))
    + (if decide (mouse_captured (step s c) = Some target) then 1 else 0).
Proof.
  intros Hover Hcaptured.
  destruct c as [widget|widget];
    unfold step, _set_mouse_over, capture_mouse, post_message, delivers;
    destruct widget as [w|], (mouse_over s) as [over|] eqn:Hmo,
      (mouse_captured s) as [captured|] eqn:Hmc;
    repeat (case_decide;
            cbn [state_of and_then finally posted mouse_over mouse_captured
                 mouse_position set_posted set_mouse_over set_mouse_captured]);
    cbn [state_of and_then finally posted mouse_over mouse_captured
         mouse_position set_posted set_mouse_over set_mouse_captured];
    rewrite ?Hmo, ?Hmc, ?received_snoc; cbn [kind_of fst snd];
    repeat case_decide; destruct_and?; simplify_eq; try lia;
    try (exfalso; intuition congruence);
    split; try lia; exfalso; intuition congruence.
Qed.

(** X12.  As long as every message is delivered, [_set_mouse_over] and
    [capture_mouse] pair their messages: over any sequence of calls from
    the initial state, a widget has received one [Enter] more than
    [Leave] when the mouse is over it and as many otherwise, and one
    [MouseCapture] more than [MouseRelease] when it holds the capture and
    as many otherwise. *)
Theorem mouse_messages_paired (position : Z * Z) (calls : list call) (target : nat) :
  let s := foldl step (started position) calls in
  received target IsEnter (posted s)
  = received target IsLeave (posted s)
    + (if decide (mouse_over s = Some target) then 1 else 0) ∧
  received target IsCapture (posted s)
  = received target IsRelease (posted s)
    + (if decide (mouse_captured s = Some target) then 1 else 0).
Proof.
  cbn zeta. induction calls as [|c calls IH] using rev_ind.
  - done.
  - rewrite foldl_snoc. destruct IH as [Hover Hcaptured].
    by apply step_paired.
Qed.

Lemma set_mouse_over_always_sets_witness :
  let s := mkHandler (Some 3) None (0%Z, 0%Z) ∅ [] in
  mouse_over (state_of (_set_mouse_over (λ _ _, true) (Some 4) s)) = Some 4 ∧
  posted (state_of (_set_mouse_over delivers (Some 4) s)) = [(3, Leave); (4, Enter)].
Proof.
  intros s. split.
  - by destruct (set_mouse_over_always_sets (λ _ _, true) (Some 4) s) as [-> _].
  - reflexivity.
Defined.

(** X13.  Print capture is a dict keyed by the target.  Ending a capture
    that is not running raises [KeyError], and so does beginning one with
    both streams switched off.  Beginning a capture with a stream
    switched on records the pair of flags; ending it removes the entry, a
    second end raises [KeyError], and if the target was not capturing
    before, the handler is back where it started. *)
Theorem capture_print_round_trip (target : nat) (stdout stderr : bool)
    (s : AppEventHandler) :
  (_capture_print s !! target = None →
   end_capture_print target s = inr (KeyError target) ∧
   begin_capture_print target false false s = inr (KeyError target)) ∧
  (stdout || stderr = true →
   ∃ s1 s2,
     begin_capture_print target stdout stderr s = inl s1 ∧
     _capture_print s1 !! target = Some (stdout, stderr) ∧
     end_capture_print target s1 = inl s2 ∧
     end_capture_print target s2 = inr (KeyError target) ∧
     (_capture_print s !! target = None → s2 = s)).
Proof.
  split.
  - intros Hnone. unfold begin_capture_print, end_capture_print. cbn.
    by rewrite Hnone.
  - intros Hon. unfold begin_capture_print.
    assert (negb stdout && negb stderr = false) as ->
      by (by destruct stdout, stderr).
    eexists _, _. split; [reflexivity|].
    unfold end_capture_print. cbn. rewrite lookup_insert_eq.
    split; [done|]. split; [reflexivity|]. cbn. rewrite lookup_delete_eq.
    split; [done|]. intros Hnone. rewrite delete_insert_eq.
    rewrite delete_id by done. by destruct s.
Qed.

Lemma capture_print_round_trip_witness :
  ∃ s1, begin_capture_print 7 true false (started (0%Z, 0%Z)) = inl s1 ∧
        end_capture_print 7 s1 = inl (started (0%Z, 0%Z)).
Proof.
  destruct (capture_print_round_trip 7 true false (started (0%Z, 0%Z)))
    as [_ Hround].
  destruct (Hround eq_refl) as (s1 & s2 & Hbegin & _ & Hend & _ & Hback).
  exists s1. split; [exact Hbegin|]. rewrite Hend. f_equal. by apply Hback.
Defined.

End MouseProperties.

Section ActionProperties.
Import EventHandler Actions.
Local Open Scope nat_scope.

(** X14.  When [run_action] reports the action as handled, the action
    parsed, its target was the default namespace (the app when none is
    given) for an empty destination and otherwise the attribute of a
    known action target, the target's [check_action] allowed it, and
    exactly one method was invoked, on that target: the private
    [_action_] method when callable, else the public one.  When
    [check_action] refuses, nothing is invoked and the result is
    [False]. *)
Theorem run_action_handled (app : AppEventHandler) (action_ : action_ref)
    (default_namespace : option DOMNode) :
  (∀ invoked,
     run_action app action_ default_namespace = (invoked, Ok true) →
     ∃ destination action_name params action_target method body,
       match action_ with
       | Parsed parsed => parsed = (destination, action_name, params)
       | Text text => parse app text = Ok (destination, action_name, params)
       end ∧
       (if decide (destination = "")
        then action_target = default (self_node app) default_namespace
        else destination ∈ _action_targets app ∧
             getattr_self app destination = Some action_target) ∧
       check_action action_target action_name params = true ∧
       invoked = [(node_id action_target, method)] ∧
       attributes action_target !! method = Some (Callable body) ∧
       body params = Completes ∧
       (method = "_action_" +:+ action_name ∨
        method = "action_" +:+ action_name ∧
        ∀ private, attributes action_target !! ("_action_" +:+ action_name)
                   ≠ Some (Callable private))) ∧
  (∀ action_target action_name params,
     _parse_action app action_ (default (self_node app) default_namespace)
     = Ok (action_target, action_name, params) →
     check_action action_target action_name params = false →
     run_action app action_ default_namespace = ([], Ok false)).
Proof.
  split.
  - intros invoked Hrun. unfold run_action, _parse_action in Hrun.
    destruct (match action_ with Parsed parsed => Ok parsed | Text text => parse app text end)
      as [[[destination action_name] params]|e] eqn:Hparse; [|done].
    exists destination, action_name, params.
    assert (Hparsed : match action_ with
                      | Parsed parsed => parsed = (destination, action_name, params)
                      | Text text => parse app text = Ok (destination, action_name, params)
                      end).
    { destruct action_; [done | by injection Hparse]. }
    assert (Hdispatch : ∀ action_target,
      (if check_action action_target action_name params
       then let '(invoked, out) :=
              _dispatch_action (attributes action_target) action_name params in
            ((λ method, (node_id action_target, method)) <$> invoked,
             match out with
             | Returns handled => Ok handled
             | Raises tag => Raise (Other tag)
             end)
       else ([], Ok false)) = (invoked, Ok true) →
      ∃ method body,
        check_action action_target action_name params = true ∧
        invoked = [(node_id action_target, method)] ∧
        attributes action_target !! method = Some (Callable body) ∧
        body params = Completes ∧
        (method = "_action_" +:+ action_name ∨
         method = "action_" +:+ action_name ∧
         ∀ private, attributes action_target !! ("_action_" +:+ action_name)
                    ≠ Some (Callable private))).
    { intros action_target H.
      destruct (check_action action_target action_name params); [|done].
      unfold _dispatch_action, invoke_handler in H.
      destruct (attributes action_target !! ("_action_" +:+ action_name))
        as [[private|]|] eqn:Hprivate.
      - destruct (private params) eqn:Hbody; try done.
        injection H as <-. exists ("_action_" +:+ action_name), private. auto 6.
      - destruct (attributes action_target !! ("action_" +:+ action_name))
          as [[public|]|] eqn:Hpublic; try done.
        destruct (public params) eqn:Hbody; try done.
        injection H as <-. exists ("action_" +:+ action_name), public.
        repeat (split; [done|]). right. split; [done|]. by intros private.
      - destruct (attributes action_target !! ("action_" +:+ action_name))
          as [[public|]|] eqn:Hpublic; try done.
        destruct (public params) eqn:Hbody; try done.
        injection H as <-. exists ("action_" +:+ action_name), public.
        repeat (split; [done|]). right. split; [done|]. by intros private. }
    destruct (decide (destination ≠ "")) as [Hdest|Hdest].
    + destruct (decide (destination ∉ _action_targets app)) as [|Hknown]; [done|].
      destruct (getattr_self app destination) as [action_target|] eqn:Hattr;
        [|done].
      destruct (Hdispatch action_target Hrun) as (method & body & Hrest).
      exists action_target, method, body. split; [done|].
      rewrite decide_False by done. split; [|done]. split; [|done].
      by destruct (decide (destination ∈ _action_targets app)).
    + destruct (Hdispatch _ Hrun) as (method & body & Hrest).
      eexists _, method, body. split; [done|].
      rewrite decide_True by (by destruct (decide (destination = ""))).
      split; [reflexivity|]. done.
  - intros action_target action_name params Hparse Hcheck.
    unfold run_action. by rewrite Hparse, Hcheck.
Qed.

Lemma run_action_handled_witness :
  let refusing := mkNode 2 {[ "action_quit" := Callable (λ _, Completes) ]}
                    (λ _ _, false) in
  run_action plain_app (Text "quit") (Some quitting_screen)
  = ([(1, "action_quit")], Ok true) ∧
  run_action plain_app (Text "quit") (Some refusing) = ([], Ok false).
Proof.
  intros refusing. split; [reflexivity|].
  destruct (run_action_handled plain_app (Text "quit") (Some refusing))
    as [_ Hrefused].
  apply (Hrefused refusing "quit" []); reflexivity.
Defined.

(** X15.  [check_bindings] stops at the first binding whose action is
    handled.  When it returns [True], the chain splits at a namespace
    whose binding for the key has the wanted priority and whose action
    was handled; every namespace before it either had no such binding or
    its action was not handled; and the methods invoked are those of the
    rounds up to and including that namespace, none of a later one.
    With [priority] set the chain is walked from the app down, that is in
    the reverse of the binding chain. *)
Theorem check_bindings_first_handled (app : AppEventHandler)
    (_binding_chain _modal_binding_chain : list (DOMNode * gmap string Binding))
    (key : string) (priority_ : bool) (invoked : list (nat * string)) :
  check_bindings app _binding_chain _modal_binding_chain key priority_
  = (invoked, Ok true) →
  ∃ before namespace bindings after binding handled_by,
    (if priority_ then reverse _binding_chain else _modal_binding_chain)
    = before ++ (namespace, bindings) :: after ∧
    Forall (passes app key priority_) before ∧
    bindings !! key = Some binding ∧
    priority binding = priority_ ∧
    run_action app (action binding) (Some namespace) = (handled_by, Ok true) ∧
    invoked = invoked_by app key priority_ before ++ handled_by.
Proof.
  unfold check_bindings.
  generalize (if priority_ then reverse _binding_chain else _modal_binding_chain).
  intros chain. revert invoked.
  induction chain as [|[namespace bindings] chain IH]; intros invoked H; [done|].
  cbn [check_bindings_loop] in H.
  destruct (attempt app key priority_ (namespace, bindings))
    as [[tried [[]|e]]|] eqn:Hattempt; [| | done |].
  - injection H as <-. exists [], namespace, bindings, chain.
    unfold attempt in Hattempt.
    destruct (bindings !! key) as [binding|]; [|done].
    destruct (bool_decide (priority binding = priority_)) eqn:Hpriority; [|done].
    apply bool_decide_eq_true in Hpriority. injection Hattempt as Hrun.
    exists binding, tried. by repeat split.
  - destruct (check_bindings_loop app key priority_ chain) as [later out] eqn:Hrest.
    injection H as <- ->.
    destruct (IH later eq_refl)
      as (before & ns & bs & after & binding & handled_by & -> & Hbefore & Hrest').
    exists ((namespace, bindings) :: before), ns, bs, after, binding, handled_by.
    split; [done|]. split.
    { constructor; [|done]. unfold passes. by rewrite Hattempt. }
    destruct Hrest' as (? & ? & ? & ->). repeat (split; [done|]).
    unfold invoked_by. cbn [fmap list_fmap concat]. rewrite Hattempt.
    by rewrite app_assoc.
  - destruct (IH invoked H)
      as (before & ns & bs & after & binding & handled_by & -> & Hbefore & Hrest').
    exists ((namespace, bindings) :: before), ns, bs, after, binding, handled_by.
    split; [done|]. split.
    { constructor; [|done]. unfold passes. by rewrite Hattempt. }
    destruct Hrest' as (? & ? & ? & ->). repeat (split; [done|]).
    unfold invoked_by. cbn [fmap list_fmap concat]. by rewrite Hattempt.
Qed.

Lemma check_bindings_first_handled_witness :
  let q := {[ "q" := mkBinding (Text "quit") false ]} in
  let chain := [(self_node plain_app, q); (quitting_screen, q);
                (quitting_screen, q)] in
  check_bindings plain_app [] chain "q" false = ([(1, "action_quit")], Ok true).
Proof.
  intros q chain.
  destruct (check_bindings plain_app [] chain "q" false) as [invoked out] eqn:Hrun.
  assert (out = Ok true) as -> by (vm_compute in Hrun; by injection Hrun as _ <-).
  destruct (check_bindings_first_handled plain_app [] chain "q" false invoked Hrun)
    as (before & namespace & bindings & after & binding & handled_by
        & _ & _ & _ & _ & _ & _).
  vm_compute in Hrun. by injection Hrun as <-.
Defined.

End ActionProperties.
